(** * StreamReader (plugkit/js/stream_reader.js)

    A shallow embedding of the scatter-gather byte-stream reader of
    plugkit, and the properties of its specification that concern
    [addSlice], [addPayload], [length], [read] and [search].

    Modelling conventions.
    - A [Uint8Array] is a list of bytes; the reader never writes into a
      slice it holds, so sharing is not observable and slices are values.
    - JavaScript integers are [Z]. Lengths and offsets are far below 2^53,
      where double arithmetic on integers is exact.
    - A method that mutates [this._fields] is a function in the monad [M]
      (state plus exceptions); [read] and [search] leave the fields alone
      and are functions from the fields to a [result].
    - An exception is either one of the [TypeError]s the code throws
      itself, with its message, or an error raised by the engine while the
      code runs (a property of [undefined] or [null], a typed-array [set]
      that does not fit). *)

From Stdlib Require Import ZArith String.
From Stdlib.Strings Require Import Byte.
From stdpp Require Import base numbers list.

Local Open Scope Z_scope.

Abbreviation bytes := (list byte).

(** ** JavaScript values and completions *)

(** The values the methods can be handed. [VInt] is a number for which
    [Number.isInteger] holds; [VNonInteger] stands for every other number
    (a fraction, NaN, an infinity). [VObject ctor slices] is an object
    whose [constructor.name] is [ctor] and whose property [slices] is
    [slices]. *)
Inductive value : Type :=
| VUndefined
| VNull
| VInt (z : Z)
| VNonInteger
| VString (s : string)
| VUint8Array (b : bytes)
| VArray (elems : list value)
| VObject (ctor : string) (slices : value).

Inductive exn : Type :=
| TypeError (msg : string)
| EngineTypeError
| EngineRangeError.

Inductive result (A : Type) : Type :=
| Return (a : A)
| Throw (e : exn).

Arguments Return {A} a.
Arguments Throw {A} e.

Definition len (b : bytes) : Z := Z.of_nat (length b).

(** [typeof v] *)
Definition typeof (v : value) : string :=
  match v with
  | VUndefined => "undefined"
  | VInt _ | VNonInteger => "number"
  | VString _ => "string"
  | VNull | VUint8Array _ | VArray _ | VObject _ _ => "object"
  end.

(** [v.constructor.name], for an object [v] *)
Definition constructor_name (v : value) : string :=
  match v with
  | VUint8Array _ => "Uint8Array"
  | VArray _ => "Array"
  | VObject ctor _ => ctor
  | _ => ""
  end.

(** [v.slices], for an object [v] *)
Definition get_slices (v : value) : value :=
  match v with
  | VObject _ slices => slices
  | _ => VUndefined
  end.

(** The values [for (const x of v)] runs over; [None] when [v] is not
    iterable. *)
Definition iterate (v : value) : option (list value) :=
  match v with
  | VArray elems => Some elems
  | VUint8Array b => Some (map (fun x => VInt (Z.of_N (Byte.to_N x))) b)
  | VString s => Some (map (fun c => VString (String c EmptyString)) (list_ascii_of_string s))
  | _ => None
  end.

(** A parameter with a default value: [undefined] selects the default. *)
Definition default_param (v d : value) : value :=
  match v with
  | VUndefined => d
  | _ => v
  end.

Definition Number_isInteger (v : value) : bool :=
  match v with
  | VInt _ => true
  | _ => false
  end.

(** ** Typed-array primitives *)

Module Uint8Array.

(** [a[i]]: [None] is [undefined]. *)
Definition get (a : bytes) (i : Z) : option byte :=
  if i <? 0 then None else a !! Z.to_nat i.

(** Equality of two element reads. On numbers and [undefined], [==] and
    [===] agree. *)
Definition elem_eq (x y : option byte) : bool :=
  match x, y with
  | Some a, Some b => Byte.eqb a b
  | None, None => true
  | _, _ => false
  end.

(** A relative index of [slice]: counted from the end when negative,
    clamped to [0, length]. *)
Definition relative (length k : Z) : Z :=
  if k <? 0 then Z.max (length + k) 0 else Z.min k length.

(** [a.slice(start, end)]; [end_ = None] when the argument is absent. *)
Definition slice (a : bytes) (start : Z) (end_ : option Z) : bytes :=
  let k := relative (len a) start in
  let final := match end_ with
               | Some e => relative (len a) e
               | None => len a
               end in
  let count := Z.max (final - k) 0 in
  take (Z.to_nat count) (drop (Z.to_nat k) a).

(** [new Uint8Array(n)]: [n] zero bytes, a RangeError when [n < 0]. *)
Definition new (n : Z) : result bytes :=
  if n <? 0 then Throw EngineRangeError
  else Return (replicate (Z.to_nat n) x00).

(** [target.set(source, offset)] for a typed-array [source] and an
    integer [offset]: a RangeError when the source does not fit. *)
Definition set (target source : bytes) (offset : Z) : result bytes :=
  if offset <? 0 then Throw EngineRangeError
  else if len source + offset >? len target then Throw EngineRangeError
  else Return (take (Z.to_nat offset) target ++ source
               ++ drop (Z.to_nat (offset + len source)) target).

End Uint8Array.

(** ** The class *)

Module StreamReader.

(** [this._fields] *)
Record fields : Type := { fields_length : Z; fields_slices : list bytes }.

(** Mutating methods: the fields after the call are part of the outcome
    also when the call throws. *)
Definition M (A : Type) : Type := fields -> result A * fields.

Definition ret {A} (a : A) : M A := fun self => (Return a, self).
Definition throw {A} (e : exn) : M A := fun self => (Throw e, self).
Definition bind {A B} (m : M A) (k : A -> M B) : M B :=
  fun self =>
    match m self with
    | (Return a, self') => k a self'
    | (Throw e, self') => (Throw e, self')
    end.

(** [for (const x of xs) body(x)] *)
Fixpoint for_of {A} (xs : list A) (body : A -> M unit) : M unit :=
  match xs with
  | [] => ret tt
  | x :: xs' => bind (body x) (fun _ => for_of xs' body)
  end.

Definition constructor : fields :=
  {| fields_length := 0; fields_slices := [] |}.

Definition addSlice (slice : value) : M unit :=
  match slice with
  | VUint8Array b =>
      fun self =>
        (Return tt,
         {| fields_length := fields_length self + len b;
            fields_slices := fields_slices self ++ [b] |})
  | _ => throw (TypeError "First argument must be an Uint8Array")
  end.

Definition addPayload (payload : value) : M unit :=
  if negb (String.eqb (typeof payload) "object")
     || (match payload with VNull => true | _ => false end)
     || negb (String.eqb (constructor_name payload) "Payload")
  then throw (TypeError "First argument must be an Uint8Array")
  else
    match iterate (get_slices payload) with
    | None => throw EngineTypeError
    | Some elems => for_of elems addSlice
    end.

(** The loop
    [for (; begin < slices.length &&
            (beginOffset += slices[begin].length) <= offset; ++begin);]
    started with [rest] the slices from index [begin] on. The addition
    is carried out also by the test that ends the loop. *)
Fixpoint scan_begin (rest : list bytes) (begin : nat) (beginOffset offset : Z)
  : nat * Z :=
  match rest with
  | [] => (begin, beginOffset)
  | s :: rest' =>
      let beginOffset := beginOffset + len s in
      if beginOffset <=? offset
      then scan_begin rest' (S begin) beginOffset offset
      else (begin, beginOffset)
  end.

(** The loop
    [for (; end < slices.length &&
            (endOffset += slices[end].length) < offset + length; ++end);]
    with [limit] standing for [offset + length]. *)
Fixpoint scan_end (rest : list bytes) (end_ : nat) (endOffset limit : Z)
  : nat * Z :=
  match rest with
  | [] => (end_, endOffset)
  | s :: rest' =>
      let endOffset := endOffset + len s in
      if endOffset <? limit
      then scan_end rest' (S end_) endOffset limit
      else (end_, endOffset)
  end.

(** The copying loop [for (let i = begin; i <= end; ++i)] of [read], run
    over the indices [todo] that remain. [slices[i]] beyond the last slice
    is [undefined], which [data.set] refuses. *)
Fixpoint copy_slices (slices : list bytes) (begin : nat)
    (offset beginOffset : Z) (todo : list nat) (data : bytes) (dst : Z)
  : result (bytes * Z) :=
  match todo with
  | [] => Return (data, dst)
  | i :: todo' =>
      match slices !! i with
      | None => Throw EngineTypeError
      | Some slice =>
          let slice := if (i =? begin)%nat
                       then Uint8Array.slice slice (offset - beginOffset) None
                       else slice in
          match Uint8Array.set data slice dst with
          | Throw e => Throw e
          | Return data =>
              copy_slices slices begin offset beginOffset todo' data
                          (dst + len slice)
          end
      end
  end.

(** [read] once both arguments have passed [Number.isInteger]. *)
Definition read_range (slices : list bytes) (length offset : Z)
  : result value :=
  let '(begin, beginOffset) := scan_begin slices 0%nat 0 offset in
  if beginOffset <=? offset then Return VNull
  else
    match slices !! begin with
    | None => Throw EngineTypeError
    | Some first =>
        let beginOffset := beginOffset - len first in
        let '(end_, endOffset) :=
          scan_end (drop begin slices) begin beginOffset (offset + length) in
        let buflen := Z.min length (endOffset - beginOffset) in
        let sliceOffset := offset - beginOffset in
        if len first >=? sliceOffset + buflen
        then Return (VUint8Array
               (Uint8Array.slice first sliceOffset (Some (sliceOffset + buflen))))
        else
          match Uint8Array.new buflen with
          | Throw e => Throw e
          | Return data =>
              match copy_slices slices begin offset beginOffset
                      (seq begin (S end_ - begin)) data 0 with
              | Throw e => Throw e
              | Return (data, _) => Return (VUint8Array data)
              end
          end
    end.

Definition read (self : fields) (length offset : value) : result value :=
  let offset := default_param offset (VInt 0) in
  match length with
  | VInt length =>
      match offset with
      | VInt offset => read_range (fields_slices self) length offset
      | _ => Throw (TypeError "Second argument must be an integer")
      end
  | _ => Throw (TypeError "First argument must be an integer")
  end.

(** The comparison loop of [search],
    [for (let j = 0; j < window.length; ++j)
       if (window[i] !== slice[i]) { equal = false; break }],
    with [todo] iterations left; the result is [equal]. Both reads use
    the index [i] of the outer loop. *)
Fixpoint compare_window (window slice : bytes) (i : nat) (todo : nat) : bool :=
  match todo with
  | O => true
  | S todo' =>
      if negb (Uint8Array.elem_eq (Uint8Array.get window (Z.of_nat i))
                                   (Uint8Array.get slice (Z.of_nat i)))
      then false
      else compare_window window slice i todo'
  end.

(** The loop [for (; index < slice.length - pattern.length + 1; ++index)]
    of [search] with [todo] iterations left. [Some p] is [return p];
    [None] is the end of the loop. *)
Fixpoint search_slice (self : fields) (pattern : bytes) (front : Z)
    (slice : bytes) (i : nat) (todo : nat) (index : Z) : result (option Z) :=
  match todo with
  | O => Return None
  | S todo' =>
      let next := search_slice self pattern front slice i todo' (index + 1) in
      if Uint8Array.elem_eq (Uint8Array.get slice index)
                            (Uint8Array.get pattern 0)
      then
        match read self (VInt (len pattern)) (VInt (front + index)) with
        | Throw e => Throw e
        | Return (VUint8Array window) =>
            if len window =? len pattern
            then
              if compare_window window slice i (length window)
              then Return (Some (front + index + len pattern))
              else next
            else next
        | Return _ => Throw EngineTypeError
        end
      else next
  end.

(** The loop [for (let i = begin; i < slices.length; ++i)] of [search],
    with [rest] the slices from index [i] on. *)
Fixpoint search_slices (self : fields) (pattern : bytes) (offset : Z)
    (begin : nat) (beginOffset front : Z) (rest : list bytes) (i : nat)
  : result Z :=
  match rest with
  | [] => Return (-1)
  | slice :: rest' =>
      let index := if (i =? begin)%nat then offset - beginOffset else 0 in
      let todo := Z.to_nat (len slice - len pattern + 1 - index) in
      match search_slice self pattern front slice i todo index with
      | Throw e => Throw e
      | Return (Some p) => Return p
      | Return None =>
          search_slices self pattern offset begin beginOffset front rest' (S i)
      end
  end.

Definition search (self : fields) (pattern offset : value) : result Z :=
  let offset := default_param offset (VInt 0) in
  match pattern with
  | VUint8Array pattern =>
      match offset with
      | VInt offset =>
          if len pattern =? 0 then Return 0
          else
            let slices := fields_slices self in
            let '(begin, beginOffset) := scan_begin slices 0%nat 0 offset in
            if beginOffset <=? offset then Return (-1)
            else
              match slices !! begin with
              | None => Throw EngineTypeError
              | Some first =>
                  let beginOffset := beginOffset - len first in
                  let front := beginOffset in
                  search_slices self pattern offset begin beginOffset front
                                (drop begin slices) begin
              end
      | _ => Throw (TypeError "Second argument must be an integer")
      end
  | _ => Throw (TypeError "First argument must be an Uint8Array")
  end.

(** The getter [length]. *)
Definition length (self : fields) : Z := fields_length self.

End StreamReader.

(** ** Streams built by calls *)

(** The sum of the lengths of the slices. *)
Definition sum_lengths (slices : list bytes) : Z :=
  foldr (fun s acc => len s + acc) 0 slices.

(** A payload object holding the slices [ss], in order. *)
Definition Payload (ss : list bytes) : value :=
  VObject "Payload" (VArray (map VUint8Array ss)).

(** One call of a mutating method, with any argument. *)
Inductive call : Type :=
| AddSlice (slice : value)
| AddPayload (payload : value).

Definition perform (c : call) : StreamReader.M unit :=
  match c with
  | AddSlice slice => StreamReader.addSlice slice
  | AddPayload payload => StreamReader.addPayload payload
  end.

(** The fields after a sequence of calls whose exceptions, if any, the
    caller catches. *)
Definition run_calls (calls : list call) (self : StreamReader.fields)
  : StreamReader.fields :=
  foldl (fun self c => snd (perform c self)) self calls.

(** A call with a well-formed argument, and the slices it hands over. *)
Inductive append : Type :=
| Slice (b : bytes)
| Slices (ss : list bytes).

Definition call_of (a : append) : call :=
  match a with
  | Slice b => AddSlice (VUint8Array b)
  | Slices ss => AddPayload (Payload ss)
  end.

Definition slices_of (a : append) : list bytes :=
  match a with
  | Slice b => [b]
  | Slices ss => ss
  end.

(** The fields that hold the slices [slices]. *)
Definition stream (slices : list bytes) : StreamReader.fields :=
  {| StreamReader.fields_length := sum_lengths slices;
     StreamReader.fields_slices := slices |}.

(** The elements of [elems] before the first that is not a [Uint8Array]. *)
Fixpoint leading_slices (elems : list value) : list bytes :=
  match elems with
  | VUint8Array b :: elems' => b :: leading_slices elems'
  | _ => []
  end.

(** The slices of [payload] that [addPayload] reaches before it meets a
    malformed one: none when the payload itself is refused. *)
Definition reached_slices (payload : value) : list bytes :=
  match payload with
  | VObject ctor slices =>
      if String.eqb ctor "Payload"
      then match iterate slices with
           | Some elems => leading_slices elems
           | None => []
           end
      else []
  | _ => []
  end.

(** [self] with the slices [ss] appended. *)
Definition extend (self : StreamReader.fields) (ss : list bytes)
  : StreamReader.fields :=
  {| StreamReader.fields_length := StreamReader.fields_length self + sum_lengths ss;
     StreamReader.fields_slices := StreamReader.fields_slices self ++ ss |}.

(** The slices a call appends, whether it then succeeds or throws. *)
Definition appended_by (c : call) : list bytes :=
  match c with
  | AddSlice slice => leading_slices [slice]
  | AddPayload payload => reached_slices payload
  end.

(** The index that the slice at index [k] moves to when a slice is put in
    at index [n]. *)
Definition shift_index (n k : nat) : nat :=
  if (k <? n)%nat then k else S k.

(** The bytes of the logical range [offset, offset + length) of the
    stream, cut off at its end: what the specification asks of [read]. *)
Definition logical_range (slices : list bytes) (length offset : Z) : bytes :=
  take (Z.to_nat length) (drop (Z.to_nat offset) (concat slices)).

(** The stored length agrees with the stored slices. *)
Definition consistent (self : StreamReader.fields) : Prop :=
  StreamReader.fields_length self = sum_lengths (StreamReader.fields_slices self).

(** * Properties *)

Import StreamReader (fields, fields_length, fields_slices, constructor,
                     addSlice, addPayload, for_of, read, search).

(** ** Lengths *)

Lemma len_nonneg (b : bytes) : 0 <= len b.
Proof. unfold len. lia. Qed.

Lemma sum_lengths_cons (s : bytes) (l : list bytes) :
  sum_lengths (s :: l) = len s + sum_lengths l.
Proof. reflexivity. Qed.

Lemma sum_lengths_app (l1 l2 : list bytes) :
  sum_lengths (l1 ++ l2) = sum_lengths l1 + sum_lengths l2.
Proof.
  induction l1 as [|s l1 IH]; [reflexivity|].
  rewrite <- app_comm_cons, !sum_lengths_cons, IH. lia.
Qed.

Lemma sum_lengths_nonneg (l : list bytes) : 0 <= sum_lengths l.
Proof.
  induction l as [|s l IH]; [cbn; lia|].
  rewrite sum_lengths_cons. pose proof (len_nonneg s). lia.
Qed.

Lemma sum_lengths_concat (l : list bytes) : sum_lengths l = len (concat l).
Proof.
  induction l as [|s l IH]; [reflexivity|].
  rewrite sum_lengths_cons, IH. cbn. unfold len. rewrite length_app. lia.
Qed.

(** ** Appending *)

Lemma extend_nil (self : fields) : extend self [] = self.
Proof.
  destruct self as [n l]. unfold extend; cbn.
  f_equal; [lia | apply app_nil_r].
Qed.

Lemma extend_extend (self : fields) (a b : list bytes) :
  extend (extend self a) b = extend self (a ++ b).
Proof.
  unfold extend; cbn. rewrite sum_lengths_app, app_assoc. f_equal. lia.
Qed.

Lemma extend_consistent (self : fields) (ss : list bytes) :
  consistent self -> consistent (extend self ss).
Proof.
  unfold consistent, extend; cbn. intros ->. now rewrite sum_lengths_app.
Qed.

Lemma extend_constructor (ss : list bytes) : extend constructor ss = stream ss.
Proof. reflexivity. Qed.

Lemma addSlice_bytes (b : bytes) (self : fields) :
  addSlice (VUint8Array b) self = (Return tt, extend self [b]).
Proof.
  unfold extend. cbn. do 3 f_equal. lia.
Qed.

(** A refused argument leaves the fields as they were. *)
Lemma addSlice_throws (slice : value) (self self' : fields) (e : exn) :
  addSlice slice self = (Throw e, self') ->
  self' = self /\ leading_slices [slice] = [].
Proof.
  destruct slice; cbn; unfold StreamReader.throw; intros H;
    inversion H; subst; auto.
Qed.

(** The loop of [addPayload]: the leading well-formed elements are
    appended, and the loop succeeds exactly when that is all of them. *)
Lemma for_of_addSlice (elems : list value) (self : fields) :
  exists r,
    for_of elems addSlice self = (r, extend self (leading_slices elems))
    /\ (r = Return tt <-> elems = map VUint8Array (leading_slices elems)).
Proof.
  revert self. induction elems as [|v elems IH]; intros self.
  - exists (Return tt). cbn. unfold StreamReader.ret.
    rewrite extend_nil. tauto.
  - destruct v;
      try (eexists; cbn; unfold StreamReader.bind, StreamReader.throw; cbn;
           rewrite extend_nil; split; [reflexivity | split; discriminate]).
    destruct (IH (extend self [b])) as (r & Hr & Hiff).
    exists r. split.
    + cbn [for_of]. unfold StreamReader.bind.
      rewrite addSlice_bytes, Hr, extend_extend. reflexivity.
    + rewrite Hiff. cbn. split; [intros H; now f_equal|].
      intros H. injection H as H. exact H.
Qed.

Lemma leading_slices_map (ss : list bytes) :
  leading_slices (map VUint8Array ss) = ss.
Proof. induction ss as [|s ss IH]; cbn; congruence. Qed.

Lemma for_of_addSlice_bytes (ss : list bytes) (self : fields) :
  for_of (map VUint8Array ss) addSlice self = (Return tt, extend self ss).
Proof.
  destruct (for_of_addSlice (map VUint8Array ss) self) as (r & Hr & Hiff).
  rewrite leading_slices_map in *.
  rewrite Hr. f_equal. now apply Hiff.
Qed.

(** What [addPayload] does to the fields, whatever its argument. *)
Lemma addPayload_fields (payload : value) (self : fields) :
  snd (addPayload payload self) = extend self (reached_slices payload).
Proof.
  destruct payload; try (cbn; now rewrite extend_nil).
  unfold addPayload, reached_slices. cbn [typeof constructor_name get_slices].
  cbn [String.eqb Ascii.eqb Bool.eqb negb orb].
  destruct (String.eqb ctor "Payload"); cbn [negb];
    [|cbn; now rewrite extend_nil].
  destruct (iterate payload) as [elems|]; [|cbn; now rewrite extend_nil].
  destruct (for_of_addSlice elems self) as (r & Hr & _). now rewrite Hr.
Qed.

Lemma addPayload_Payload (ss : list bytes) (self : fields) :
  addPayload (Payload ss) self = (Return tt, extend self ss).
Proof. apply for_of_addSlice_bytes. Qed.

Lemma perform_fields (c : call) (self : fields) :
  exists ss, snd (perform c self) = extend self ss.
Proof.
  destruct c as [v|v]; cbn.
  - destruct v; try (exists []; cbn; now rewrite extend_nil).
    exists [b]. now rewrite addSlice_bytes.
  - eexists. apply addPayload_fields.
Qed.

Lemma run_calls_consistent (calls : list call) (self : fields) :
  consistent self -> consistent (run_calls calls self).
Proof.
  revert self. induction calls as [|c calls IH]; intros self Hc; [exact Hc|].
  cbn. apply IH. destruct (perform_fields c self) as [ss ->].
  now apply extend_consistent.
Qed.

Lemma perform_call_of (a : append) (self : fields) :
  perform (call_of a) self = (Return tt, extend self (slices_of a)).
Proof.
  destruct a; cbn [perform call_of slices_of].
  - apply addSlice_bytes.
  - apply addPayload_Payload.
Qed.

Lemma for_of_appends (apps : list append) (self : fields) :
  for_of (map call_of apps) perform self
  = (Return tt, extend self (concat (map slices_of apps))).
Proof.
  revert self. induction apps as [|a apps IH]; intros self.
  - cbn. unfold StreamReader.ret. now rewrite extend_nil.
  - cbn [map for_of]. unfold StreamReader.bind.
    rewrite perform_call_of, IH, extend_extend. reflexivity.
Qed.

(** C5. After every sequence of calls of [addSlice] and [addPayload] that
    all succeed, the fields hold exactly the slices handed over, in order,
    and [length] is the sum of their lengths; and after every sequence of
    calls whatsoever, failed ones included, [length] is the sum of the
    lengths of the stored slices. *)
Theorem length_is_sum_of_slices :
  (forall apps : list append,
      let appended := concat (map slices_of apps) in
      exists self,
        for_of (map call_of apps) perform constructor = (Return tt, self)
        /\ fields_slices self = appended
        /\ StreamReader.length self = sum_lengths appended)
  /\ (forall calls : list call,
         let self := run_calls calls constructor in
         StreamReader.length self = sum_lengths (fields_slices self)).
Proof.
  split.
  - intros apps appended. exists (stream appended).
    rewrite for_of_appends, extend_constructor. auto.
  - intros calls. apply (run_calls_consistent calls constructor). reflexivity.
Qed.

(** C7. [addPayload] of a payload that holds the slices [s1 ... sn]
    succeeds and leaves the fields as the calls [addSlice(s1)] ...
    [addSlice(sn)] leave them, each of which succeeds: the stored slices
    are extended by [s1 ... sn] and the length by the sum of their
    lengths. Every later [read] and [search] is a function of the fields,
    so it gives the same result. *)
Theorem addPayload_is_addSlice_each (ss : list bytes) (self : fields) :
  addPayload (Payload ss) self
  = for_of (map (fun s => AddSlice (VUint8Array s)) ss) perform self
  /\ addPayload (Payload ss) self = (Return tt, extend self ss)
  /\ snd (addPayload (Payload ss) self)
     = run_calls (map (fun s => AddSlice (VUint8Array s)) ss) self.
Proof.
  assert (Hseq : forall st,
             for_of (map (fun s => AddSlice (VUint8Array s)) ss) perform st
             = (Return tt, extend st ss)).
  { intros st.
    change (map (fun s => AddSlice (VUint8Array s)) ss)
      with (map (fun s => call_of (Slice s)) ss).
    rewrite <- (map_map Slice call_of), for_of_appends.
    do 2 f_equal. rewrite map_map. cbn.
    clear. induction ss as [|s ss IH]; cbn; congruence. }
  rewrite Hseq, addPayload_Payload. repeat split.
  cbn [snd]. clear Hseq. revert self.
  induction ss as [|s ss IH]; intros self.
  - apply extend_nil.
  - cbn [map]. unfold run_calls. cbn [foldl perform].
    rewrite addSlice_bytes. cbn [snd].
    fold (run_calls (map (fun s => AddSlice (VUint8Array s)) ss) (extend self [s])).
    rewrite <- IH. now rewrite extend_extend.
Qed.

(** ** Reading past the end *)

(** When no slice ends beyond [offset], the first loop of [read] runs
    through all the slices. *)
Lemma scan_begin_all (rest : list bytes) (begin : nat) (beginOffset offset : Z) :
  beginOffset + sum_lengths rest <= offset ->
  StreamReader.scan_begin rest begin beginOffset offset
  = ((begin + length rest)%nat, beginOffset + sum_lengths rest).
Proof.
  revert begin beginOffset.
  induction rest as [|s rest IH]; intros begin beginOffset Hle.
  - cbn. f_equal; lia.
  - rewrite sum_lengths_cons in Hle. cbn [StreamReader.scan_begin].
    pose proof (sum_lengths_nonneg rest).
    destruct (Z.leb_spec (beginOffset + len s) offset); [|lia].
    rewrite IH by lia. rewrite sum_lengths_cons. cbn [length]. f_equal; lia.
Qed.

Lemma read_range_beyond (slices : list bytes) (length offset : Z) :
  sum_lengths slices <= offset ->
  StreamReader.read_range slices length offset = Return VNull.
Proof.
  intros Hle. unfold StreamReader.read_range.
  rewrite scan_begin_all by lia.
  destruct (Z.leb_spec (0 + sum_lengths slices) offset); [reflexivity | lia].
Qed.

(** C6. On every stream, [read(length, offset)] with an integer [length],
    negative or not, and an integer [offset] that is at least the total
    length returns [null]: no bytes and no exception. The stream with no
    slice has total length 0, so there every [offset >= 0] gives [null]. *)
Theorem read_beyond_end_not_available
    (calls : list call) (length offset : Z) :
  StreamReader.length (run_calls calls constructor) <= offset ->
  read (run_calls calls constructor) (VInt length) (VInt offset) = Return VNull.
Proof.
  intros Hle. unfold read. cbn [default_param].
  apply read_range_beyond.
  pose proof (run_calls_consistent calls constructor eq_refl) as Hc.
  unfold consistent in Hc. unfold StreamReader.length in Hle. lia.
Qed.

Lemma read_beyond_end_not_available_witness :
  read (run_calls [] constructor) (VInt 1) (VInt 0) = Return VNull
  /\ read (run_calls [AddSlice (VUint8Array [x41; x42])] constructor)
          (VInt 1) (VInt 2) = Return VNull.
Proof.
  split.
  - apply (read_beyond_end_not_available [] 1 0). vm_compute. discriminate.
  - apply (read_beyond_end_not_available
             [AddSlice (VUint8Array [x41; x42])] 1 2).
    vm_compute. discriminate.
Defined.

(** ** Failed appends *)

(** The claim of C8 fails: [addPayload] of a payload whose second slice is
    malformed throws after it has appended the first. *)
Lemma addPayload_not_atomic :
  ~ (forall (payload : value) (self self' : fields) (e : exn),
        addPayload payload self = (Throw e, self') -> self' = self).
Proof.
  intros H.
  specialize (H (VObject "Payload" (VArray [VUint8Array [x41]; VInt 5]))
                constructor (stream [[x41]])
                (TypeError "First argument must be an Uint8Array")
                eq_refl).
  discriminate H.
Qed.

(** C8, amended. A call of [addSlice] that throws leaves the fields
    unchanged. A call of [addPayload] that throws has appended, in order,
    the contained slices that precede the first malformed one, and nothing
    else: none when the payload itself is refused. The length has grown by
    the lengths of exactly those slices. *)
Theorem failed_append_fields
    (c : call) (self self' : fields) (e : exn) :
  perform c self = (Throw e, self') ->
  let reached := match c with
                 | AddSlice _ => []
                 | AddPayload payload => reached_slices payload
                 end in
  fields_slices self' = fields_slices self ++ reached
  /\ fields_length self' = fields_length self + sum_lengths reached
  /\ self' = extend self reached.
Proof.
  intros H reached.
  assert (Hext : self' = extend self reached).
  { destruct c as [slice|payload]; subst reached; cbn [perform] in H.
    - apply addSlice_throws in H as [-> _]. now rewrite extend_nil.
    - rewrite <- addPayload_fields, H. reflexivity. }
  rewrite Hext. auto.
Qed.

Lemma failed_append_fields_witness :
  fields_slices (stream [[x41]]) = fields_slices constructor ++ [[x41]]
  /\ fields_length (stream [[x41]]) = fields_length constructor + sum_lengths [[x41]]
  /\ stream [[x41]] = extend constructor [[x41]].
Proof.
  apply (failed_append_fields
           (AddPayload (VObject "Payload" (VArray [VUint8Array [x41]; VInt 5])))
           constructor (stream [[x41]])
           (TypeError "First argument must be an Uint8Array")).
  reflexivity.
Defined.

(** ** Argument checks *)

Lemma copy_slices_no_TypeError slices begin offset beginOffset todo data dst msg :
  StreamReader.copy_slices slices begin offset beginOffset todo data dst
  <> Throw (TypeError msg).
Proof.
  revert data dst. induction todo as [|i todo IH]; intros data dst; cbn.
  - discriminate.
  - destruct (slices !! i) as [s|]; [|discriminate].
    unfold Uint8Array.set.
    repeat match goal with |- context [if ?c then _ else _] => destruct c end;
      try discriminate; apply IH.
Qed.

Lemma read_range_no_TypeError slices length offset msg :
  StreamReader.read_range slices length offset <> Throw (TypeError msg).
Proof.
  unfold StreamReader.read_range.
  destruct (StreamReader.scan_begin slices 0 0 offset) as [begin beginOffset].
  destruct (beginOffset <=? offset); [discriminate|].
  destruct (slices !! begin) as [first|]; [|discriminate].
  destruct (StreamReader.scan_end _ _ _ _) as [end_ endOffset].
  destruct (_ >=? _); [discriminate|].
  unfold Uint8Array.new. destruct (_ <? 0); [discriminate|].
  match goal with |- context [StreamReader.copy_slices ?a ?b ?c ?d ?e ?f ?g] =>
    pose proof (copy_slices_no_TypeError a b c d e f g msg);
    destruct (StreamReader.copy_slices a b c d e f g) as [[? ?]|]
  end; congruence.
Qed.

Lemma search_slice_no_TypeError self pattern front slice i todo index msg :
  StreamReader.search_slice self pattern front slice i todo index
  <> Throw (TypeError msg).
Proof.
  revert index. induction todo as [|todo IH]; intros index; cbn.
  - discriminate.
  - destruct (Uint8Array.elem_eq _ _); [|apply IH].
    pose proof (read_range_no_TypeError (fields_slices self) (len pattern)
                  (front + index) msg) as Hr.
    destruct (StreamReader.read_range _ _ _) as [[]|]; try discriminate;
      try congruence.
    repeat match goal with |- context [if ?c then _ else _] => destruct c end;
      try discriminate; apply IH.
Qed.

Lemma search_slices_no_TypeError self pattern offset begin beginOffset front rest i msg :
  StreamReader.search_slices self pattern offset begin beginOffset front rest i
  <> Throw (TypeError msg).
Proof.
  revert i. induction rest as [|slice rest IH]; intros i; cbn.
  - discriminate.
  - match goal with |- context [StreamReader.search_slice ?a ?b ?c ?d ?e ?f ?g] =>
      pose proof (search_slice_no_TypeError a b c d e f g msg);
      destruct (StreamReader.search_slice a b c d e f g) as [[?|]|]
    end; try discriminate; try apply IH; congruence.
Qed.

(** The claim of C9 fails in the half that says a negative integer is
    rejected: on the stream of the one slice [0x41], [read(-1, 0)] and
    [search([0x41], -1)] return, so they raise no error of any kind. *)
Lemma negative_arguments_not_rejected :
  ~ (forall (self : fields) (length offset : Z),
        ~ (0 <= length /\ 0 <= offset) ->
        exists e, read self (VInt length) (VInt offset) = Throw e)
  /\ ~ (forall (self : fields) (pattern : bytes) (offset : Z),
           ~ (0 <= offset) ->
           exists e, search self (VUint8Array pattern) (VInt offset) = Throw e).
Proof.
  split; intros H.
  - destruct (H (run_calls [AddSlice (VUint8Array [x41])] constructor) (-1) 0)
      as [e He]; [lia|].
    vm_compute in He. discriminate He.
  - destruct (H (run_calls [AddSlice (VUint8Array [x41])] constructor)
                [x41] (-1)) as [e He]; [lia|].
    vm_compute in He. discriminate He.
Qed.

(** C9, amended. [read] throws the TypeError "First argument must be an
    integer" exactly when [length] is not an integer, and the TypeError
    "Second argument must be an integer" exactly when [length] is an
    integer and [offset] (0 when absent) is not; it throws no other error
    of its own. [search] with a byte pattern throws the TypeError "Second
    argument must be an integer" exactly when [offset] is not an integer,
    and no other error of its own. Every integer passes the check and is
    processed, a negative one as well. *)
Theorem argument_errors
    (self : fields) (length offset : value) (pattern : bytes) (msg : string) :
  (read self length offset = Throw (TypeError msg)
   <-> (Number_isInteger length = false
        /\ msg = "First argument must be an integer"%string)
       \/ (Number_isInteger length = true
           /\ Number_isInteger (default_param offset (VInt 0)) = false
           /\ msg = "Second argument must be an integer"%string))
  /\ (search self (VUint8Array pattern) offset = Throw (TypeError msg)
      <-> Number_isInteger (default_param offset (VInt 0)) = false
          /\ msg = "Second argument must be an integer"%string).
Proof.
  split.
  - unfold read. destruct length as [| |n| | | | |];
      try (cbn [Number_isInteger]; split;
           [intros [= <-]; left; split; reflexivity
           | intros [[_ ->] | [[=] _]]; reflexivity]).
    destruct (default_param offset (VInt 0)) as [| |z| | | | |];
      try (cbn [Number_isInteger]; split;
           [intros [= <-]; right; repeat split; reflexivity
           | intros [[[=] _] | (_ & _ & ->)]; reflexivity]).
    cbn [Number_isInteger]. split.
    + intros H. now apply read_range_no_TypeError in H.
    + intros [[[=] _] | (_ & [=] & _)].
  - unfold search.
    destruct (default_param offset (VInt 0)) as [| |z| | | | |];
      try (cbn [Number_isInteger]; split;
           [intros [= <-]; split; reflexivity | intros [_ ->]; reflexivity]).
    cbn [Number_isInteger]. split; [|intros [[=] _]].
    intros H. exfalso. revert H.
    destruct (len pattern =? 0); [discriminate|].
    destruct (StreamReader.scan_begin _ _ _ _) as [begin beginOffset].
    destruct (beginOffset <=? z); [discriminate|].
    destruct (fields_slices self !! begin); [|discriminate].
    apply search_slices_no_TypeError.
Qed.

(** ** The empty pattern *)

(** The claim of C4 fails: the result is 0 also when the offset is 3. *)
Lemma empty_pattern_not_offset :
  ~ (forall (self : fields) (offset : Z),
        0 <= offset -> search self (VUint8Array []) (VInt offset) = Return offset).
Proof.
  intros H. specialize (H constructor 3 ltac:(lia)). discriminate H.
Qed.

(** C4, amended. On every stream, [search] with an empty pattern returns
    the literal 0, for every integer offset and for an absent one. *)
Theorem empty_pattern_returns_zero (self : fields) (offset : Z) :
  search self (VUint8Array []) (VInt offset) = Return 0
  /\ search self (VUint8Array []) VUndefined = Return 0.
Proof. split; reflexivity. Qed.

(** ** Zero-length slices *)

Lemma perform_appended_by (c : call) (self : fields) :
  snd (perform c self) = extend self (appended_by c).
Proof.
  destruct c as [v|v]; cbn [perform appended_by].
  - destruct v; try (cbn; now rewrite extend_nil).
    now rewrite addSlice_bytes.
  - apply addPayload_fields.
Qed.

Lemma run_calls_appended (calls : list call) (self : fields) :
  run_calls calls self = extend self (concat (map appended_by calls)).
Proof.
  revert self. induction calls as [|c calls IH]; intros self.
  - cbn. now rewrite extend_nil.
  - unfold run_calls. cbn [foldl]. fold (run_calls calls (snd (perform c self))).
    rewrite IH, perform_appended_by, extend_extend. reflexivity.
Qed.

(** The two scanning loops only count upwards. *)
Lemma scan_begin_succ rest b bo off :
  StreamReader.scan_begin rest (S b) bo off
  = (S (StreamReader.scan_begin rest b bo off).1,
     (StreamReader.scan_begin rest b bo off).2).
Proof.
  revert b bo. induction rest as [|s rest IH]; intros b bo; cbn; [reflexivity|].
  destruct (_ <=? _); [apply IH | reflexivity].
Qed.

Lemma scan_begin_ge rest b bo off :
  (b <= (StreamReader.scan_begin rest b bo off).1)%nat.
Proof.
  revert b bo. induction rest as [|s rest IH]; intros b bo; cbn; [lia|].
  destruct (_ <=? _); [|cbn; lia].
  specialize (IH (S b) (bo + len s)). lia.
Qed.

Lemma scan_end_succ rest e eo lim :
  StreamReader.scan_end rest (S e) eo lim
  = (S (StreamReader.scan_end rest e eo lim).1,
     (StreamReader.scan_end rest e eo lim).2).
Proof.
  revert e eo. induction rest as [|s rest IH]; intros e eo; cbn; [reflexivity|].
  destruct (_ <? _); [apply IH | reflexivity].
Qed.

Lemma scan_end_ge rest e eo lim :
  (e <= (StreamReader.scan_end rest e eo lim).1)%nat.
Proof.
  revert e eo. induction rest as [|s rest IH]; intros e eo; cbn; [lia|].
  destruct (_ <? _); [|cbn; lia].
  specialize (IH (S e) (eo + len s)). lia.
Qed.

Lemma shift_index_lt n k : (k < n)%nat -> shift_index n k = k.
Proof. unfold shift_index. destruct (Nat.ltb_spec k n); [reflexivity | lia]. Qed.

Lemma shift_index_ge n k : (n <= k)%nat -> shift_index n k = S k.
Proof. unfold shift_index. destruct (Nat.ltb_spec k n); [lia | reflexivity]. Qed.

(** A loop that has not stopped before an empty slice steps over it. *)
Lemma scan_begin_insert (l1 l2 : list bytes) b bo off :
  bo <= off ->
  StreamReader.scan_begin (l1 ++ [] :: l2) b bo off
  = (shift_index (b + length l1) (StreamReader.scan_begin (l1 ++ l2) b bo off).1,
     (StreamReader.scan_begin (l1 ++ l2) b bo off).2).
Proof.
  revert b bo. induction l1 as [|s l1 IH]; intros b bo Hle.
  - cbn [app StreamReader.scan_begin length]. change (len []) with 0.
    rewrite Z.add_0_r. destruct (Z.leb_spec bo off); [|lia].
    rewrite scan_begin_succ. pose proof (scan_begin_ge l2 b bo off).
    rewrite shift_index_ge by lia. reflexivity.
  - cbn [app StreamReader.scan_begin length].
    destruct (Z.leb_spec (bo + len s) off).
    + rewrite IH by lia. do 2 f_equal. lia.
    + cbn [fst snd]. rewrite shift_index_lt by lia. reflexivity.
Qed.

Lemma scan_end_insert (l1 l2 : list bytes) e eo lim :
  eo < lim ->
  StreamReader.scan_end (l1 ++ [] :: l2) e eo lim
  = (shift_index (e + length l1) (StreamReader.scan_end (l1 ++ l2) e eo lim).1,
     (StreamReader.scan_end (l1 ++ l2) e eo lim).2).
Proof.
  revert e eo. induction l1 as [|s l1 IH]; intros e eo Hlt.
  - cbn [app StreamReader.scan_end length]. change (len []) with 0.
    rewrite Z.add_0_r. destruct (Z.ltb_spec eo lim); [|lia].
    rewrite scan_end_succ. pose proof (scan_end_ge l2 e eo lim).
    rewrite shift_index_ge by lia. reflexivity.
  - cbn [app StreamReader.scan_end length].
    destruct (Z.ltb_spec (eo + len s) lim).
    + rewrite IH by lia. do 2 f_equal. lia.
    + cbn [fst snd]. rewrite shift_index_lt by lia. reflexivity.
Qed.

Lemma lookup_shift_index (l1 l2 : list bytes) (x : bytes) (k : nat) :
  (l1 ++ x :: l2) !! shift_index (length l1) k = (l1 ++ l2) !! k.
Proof.
  destruct (Nat.lt_ge_cases k (length l1)).
  - rewrite shift_index_lt by lia. now rewrite !lookup_app_l by lia.
  - rewrite shift_index_ge by lia. rewrite !lookup_app_r by lia.
    replace (S k - length l1)%nat with (S (k - length l1)) by lia.
    reflexivity.
Qed.

(** The second loop of [read], started at the first slice of the range. *)
Lemma scan_end_drop_insert (l1 l2 : list bytes) b eo lim :
  let r := StreamReader.scan_end (drop b (l1 ++ l2)) b eo lim in
  StreamReader.scan_end (drop (shift_index (length l1) b) (l1 ++ [] :: l2))
                        (shift_index (length l1) b) eo lim
  = (shift_index (length l1) r.1, r.2).
Proof.
  intros r. subst r.
  destruct (Nat.lt_ge_cases b (length l1)) as [Hlt|Hge].
  - rewrite shift_index_lt by lia. rewrite !drop_app_le by lia.
    pose proof (length_drop l1 b) as Hlen.
    destruct (drop b l1) as [|s m]; cbn [length] in Hlen; [lia|].
    cbn [app StreamReader.scan_end].
    destruct (Z.ltb_spec (eo + len s) lim).
    + rewrite scan_end_insert by lia. do 2 f_equal. lia.
    + cbn [fst snd]. now rewrite shift_index_lt by lia.
  - rewrite shift_index_ge by lia. rewrite !drop_app_ge by lia.
    replace (S b - length l1)%nat with (S (b - length l1)) by lia.
    cbn [drop]. rewrite scan_end_succ.
    pose proof (scan_end_ge (drop (b - length l1) l2) b eo lim).
    now rewrite shift_index_ge by lia.
Qed.

(** *** The copying loop *)

Lemma copy_slices_app slices begin offset beginOffset t1 t2 data dst :
  StreamReader.copy_slices slices begin offset beginOffset (t1 ++ t2) data dst
  = match StreamReader.copy_slices slices begin offset beginOffset t1 data dst with
    | Return (data', dst') =>
        StreamReader.copy_slices slices begin offset beginOffset t2 data' dst'
    | Throw e => Throw e
    end.
Proof.
  revert data dst. induction t1 as [|i t1 IH]; intros data dst; cbn; [reflexivity|].
  destruct (slices !! i) as [s|]; [|reflexivity].
  destruct (Uint8Array.set _ _ _); [apply IH | reflexivity].
Qed.

(** The loop sees the slices only through the indices it visits. *)
Lemma copy_slices_map (f : nat -> nat) slices slices' begin begin'
    offset beginOffset todo data dst :
  Forall (fun k => slices' !! f k = slices !! k
                   /\ (f k =? begin')%nat = (k =? begin)%nat) todo ->
  StreamReader.copy_slices slices' begin' offset beginOffset (map f todo) data dst
  = StreamReader.copy_slices slices begin offset beginOffset todo data dst.
Proof.
  intros Hall. revert data dst.
  induction Hall as [|k todo [Hk Hb] _ IH]; intros data dst; cbn; [reflexivity|].
  rewrite Hk, Hb. destruct (slices !! k) as [s|]; [|reflexivity].
  destruct (Uint8Array.set _ _ _); [apply IH | reflexivity].
Qed.

Lemma set_length target source offset data :
  Uint8Array.set target source offset = Return data ->
  len data = len target /\ 0 <= offset /\ offset + len source <= len target.
Proof.
  unfold Uint8Array.set.
  destruct (Z.ltb_spec offset 0); [discriminate|].
  destruct (Z.gtb_spec (len source + offset) (len target)); [discriminate|].
  intros [= <-]. split; [|lia].
  unfold len in *. rewrite !length_app, length_take, length_drop. lia.
Qed.

Lemma set_empty target offset :
  0 <= offset <= len target ->
  Uint8Array.set target [] offset = Return target.
Proof.
  intros Hr. unfold Uint8Array.set. change (len []) with 0.
  destruct (Z.ltb_spec offset 0); [lia|].
  destruct (Z.gtb_spec (0 + offset) (len target)); [lia|].
  rewrite Z.add_0_r. cbn [app]. now rewrite take_drop.
Qed.

(** The write position stays within the buffer, whose size is fixed. *)
Lemma copy_slices_bounds slices begin offset beginOffset todo data dst data' dst' :
  StreamReader.copy_slices slices begin offset beginOffset todo data dst
  = Return (data', dst') ->
  0 <= dst <= len data ->
  len data' = len data /\ 0 <= dst' <= len data'.
Proof.
  revert data dst. induction todo as [|i todo IH]; intros data dst; cbn.
  - intros [= <- <-]. auto.
  - destruct (slices !! i) as [s|]; [|discriminate].
    destruct (Uint8Array.set _ _ _) as [d|] eqn:Hset; [|discriminate].
    intros Hcopy Hr. apply set_length in Hset as (Hlen & H0 & Hfit).
    apply IH in Hcopy as [Hlen' Hr'].
    + split; [congruence | exact Hr'].
    + match goal with |- context [len ?x] => pose proof (len_nonneg x) end.
      match type of Hfit with context [len ?x] => pose proof (len_nonneg x) end.
      lia.
Qed.

(** The copying loop of [read] over the slices [l1 ++ [] :: l2] does what
    it does over [l1 ++ l2]: it passes the empty slice without a write. *)
Lemma copy_slices_insert (l1 l2 : list bytes) b e offset beginOffset data :
  (b <= e)%nat ->
  let n := length l1 in
  StreamReader.copy_slices (l1 ++ [] :: l2) (shift_index n b) offset beginOffset
    (seq (shift_index n b) (S (shift_index n e) - shift_index n b)) data 0
  = StreamReader.copy_slices (l1 ++ l2) b offset beginOffset
      (seq b (S e - b)) data 0.
Proof.
  intros Hbe n. subst n.
  destruct (Nat.lt_ge_cases e (length l1)) as [He|He].
  - (* the range ends before the empty slice *)
    rewrite !shift_index_lt by lia.
    rewrite <- (map_id (seq b (S e - b))) at 1.
    apply copy_slices_map, Forall_forall. intros k Hk%elem_of_seq.
    split; [|reflexivity]. now rewrite !lookup_app_l by lia.
  - destruct (Nat.lt_ge_cases b (length l1)) as [Hb|Hb].
    + (* the range runs over the empty slice *)
      rewrite (shift_index_lt _ b), (shift_index_ge _ e) by lia.
      replace (S (S e) - b)%nat
        with ((length l1 - b) + S (S e - length l1))%nat by lia.
      replace (S e - b)%nat
        with ((length l1 - b) + (S e - length l1))%nat by lia.
      rewrite !seq_app, !copy_slices_app.
      replace (b + (length l1 - b))%nat with (length l1) by lia.
      rewrite <- (map_id (seq b (length l1 - b))) at 1.
      rewrite (copy_slices_map id (l1 ++ l2) (l1 ++ [] :: l2) b b).
      2:{ apply Forall_forall. intros k Hk%elem_of_seq.
          split; [|reflexivity]. unfold id. now rewrite !lookup_app_l by lia. }
      destruct (StreamReader.copy_slices (l1 ++ l2) b offset beginOffset
                  (seq b (length l1 - b)) data 0) as [[d dst]|] eqn:Hcopy;
        [|reflexivity].
      apply copy_slices_bounds in Hcopy as [_ Hr];
        [|pose proof (len_nonneg data); lia].
      cbn [seq StreamReader.copy_slices].
      rewrite list_lookup_middle by reflexivity.
      destruct (Nat.eqb_spec (length l1) b); [lia|].
      rewrite set_empty by lia. change (len []) with 0. rewrite Z.add_0_r.
      rewrite <- seq_shift.
      apply copy_slices_map, Forall_forall. intros k Hk%elem_of_seq. split.
      * rewrite !lookup_app_r by lia.
        now replace (S k - length l1)%nat with (S (k - length l1)) by lia.
      * destruct (Nat.eqb_spec (S k) b), (Nat.eqb_spec k b); lia || reflexivity.
    + (* the range starts after the empty slice *)
      rewrite !shift_index_ge by lia.
      replace (S (S e) - S b)%nat with (S e - b)%nat by lia.
      rewrite <- seq_shift.
      apply copy_slices_map, Forall_forall. intros k Hk%elem_of_seq. split.
      * rewrite !lookup_app_r by lia.
        now replace (S k - length l1)%nat with (S (k - length l1)) by lia.
      * reflexivity.
Qed.

Lemma read_range_insert (l1 l2 : list bytes) (length offset : Z) :
  0 <= offset ->
  StreamReader.read_range (l1 ++ [] :: l2) length offset
  = StreamReader.read_range (l1 ++ l2) length offset.
Proof.
  intros Hoff. unfold StreamReader.read_range.
  rewrite (scan_begin_insert l1 l2 0 0 offset Hoff). cbn [Nat.add].
  destruct (StreamReader.scan_begin (l1 ++ l2) 0 0 offset) as [b bo].
  cbn [fst snd]. destruct (bo <=? offset); [reflexivity|].
  rewrite lookup_shift_index.
  destruct ((l1 ++ l2) !! b) as [first|]; [|reflexivity].
  rewrite scan_end_drop_insert.
  pose proof (scan_end_ge (drop b (l1 ++ l2)) b (bo - len first) (offset + length)).
  destruct (StreamReader.scan_end (drop b (l1 ++ l2)) b (bo - len first)
              (offset + length)) as [e eo].
  cbn [fst snd] in *. destruct (_ >=? _); [reflexivity|].
  destruct (Uint8Array.new _) as [data|]; [|reflexivity].
  now rewrite copy_slices_insert.
Qed.

(** C10. Appending a zero-length slice succeeds and leaves [length]
    unchanged; and whichever calls come before and after it, [read] gives
    on the stream with the zero-length slice what it gives on the stream
    without it, for every offset that is not negative and every length:
    so in particular whenever [0 <= length] and
    [offset + length <= totalLength]. *)
Theorem empty_slice_invisible
    (before after : list call) (length offset : Z) :
  0 <= offset ->
  let without := run_calls (before ++ after) constructor in
  let with_empty :=
    run_calls (before ++ AddSlice (VUint8Array []) :: after) constructor in
  (forall self,
      exists self', addSlice (VUint8Array []) self = (Return tt, self')
                    /\ StreamReader.length self' = StreamReader.length self)
  /\ StreamReader.length with_empty = StreamReader.length without
  /\ read with_empty (VInt length) (VInt offset)
     = read without (VInt length) (VInt offset).
Proof.
  intros Hoff without with_empty. subst without with_empty.
  rewrite !run_calls_appended.
  rewrite !map_app, !concat_app. cbn [map concat appended_by leading_slices app].
  repeat split.
  - intros self. eexists. split; [apply addSlice_bytes|].
    unfold StreamReader.length, extend; cbn. change (len []) with 0. lia.
  - unfold StreamReader.length, extend; cbn [fields_length].
    rewrite !sum_lengths_app, sum_lengths_cons. change (len []) with 0. lia.
  - unfold read, extend; cbn [default_param fields_slices constructor app].
    now apply read_range_insert.
Qed.

Lemma empty_slice_invisible_witness :
  let without :=
    run_calls ([AddSlice (VUint8Array [x41; x42])]
               ++ [AddSlice (VUint8Array [x43])]) constructor in
  let with_empty :=
    run_calls ([AddSlice (VUint8Array [x41; x42])]
               ++ AddSlice (VUint8Array []) :: [AddSlice (VUint8Array [x43])])
              constructor in
  (forall self,
      exists self', addSlice (VUint8Array []) self = (Return tt, self')
                    /\ StreamReader.length self' = StreamReader.length self)
  /\ StreamReader.length with_empty = StreamReader.length without
  /\ read with_empty (VInt 2) (VInt 1) = read without (VInt 2) (VInt 1).
Proof.
  apply (empty_slice_invisible
           [AddSlice (VUint8Array [x41; x42])] [AddSlice (VUint8Array [x43])]
           2 1).
  lia.
Defined.

(** ** What [read] returns *)

(** *** The loops, on a stream cut at the slices they stop at *)

Lemma scan_begin_stop (pre post : list bytes) (s : bytes) b bo offset :
  bo + sum_lengths pre <= offset < bo + sum_lengths pre + len s ->
  StreamReader.scan_begin (pre ++ s :: post) b bo offset
  = ((b + length pre)%nat, bo + sum_lengths pre + len s).
Proof.
  revert b bo. induction pre as [|p pre IH]; intros b bo Hr.
  - change (sum_lengths []) with 0 in *. cbn [app StreamReader.scan_begin].
    destruct (Z.leb_spec (bo + len s) offset); [lia|].
    cbn [length]. f_equal; lia.
  - rewrite sum_lengths_cons in *. cbn [app StreamReader.scan_begin].
    pose proof (sum_lengths_nonneg pre).
    destruct (Z.leb_spec (bo + len p) offset); [|lia].
    rewrite IH by lia. cbn [length]. f_equal; lia.
Qed.

Lemma scan_end_stop (mid post : list bytes) (t : bytes) e eo limit :
  eo + sum_lengths mid < limit <= eo + sum_lengths mid + len t ->
  StreamReader.scan_end (mid ++ t :: post) e eo limit
  = ((e + length mid)%nat, eo + sum_lengths mid + len t).
Proof.
  revert e eo. induction mid as [|p mid IH]; intros e eo Hr.
  - change (sum_lengths []) with 0 in *. cbn [app StreamReader.scan_end].
    destruct (Z.ltb_spec (eo + len t) limit); [lia|].
    cbn [length]. f_equal; lia.
  - rewrite sum_lengths_cons in *. cbn [app StreamReader.scan_end].
    pose proof (sum_lengths_nonneg mid).
    destruct (Z.ltb_spec (eo + len p) limit); [|lia].
    rewrite IH by lia. cbn [length]. f_equal; lia.
Qed.

Lemma scan_end_all (rest : list bytes) e eo limit :
  eo + sum_lengths rest < limit ->
  StreamReader.scan_end rest e eo limit
  = ((e + length rest)%nat, eo + sum_lengths rest).
Proof.
  revert e eo. induction rest as [|p rest IH]; intros e eo Hr.
  - cbn. f_equal; lia.
  - rewrite sum_lengths_cons in *. cbn [StreamReader.scan_end].
    pose proof (sum_lengths_nonneg rest).
    destruct (Z.ltb_spec (eo + len p) limit); [|lia].
    rewrite IH by lia. cbn [length]. f_equal; lia.
Qed.

(** *** Typed-array operations on the buffers of [read] *)

Lemma slice_from (s : bytes) (k : Z) :
  0 <= k <= len s -> Uint8Array.slice s k None = drop (Z.to_nat k) s.
Proof.
  intros Hk. unfold Uint8Array.slice, Uint8Array.relative.
  destruct (Z.ltb_spec k 0); [lia|].
  rewrite Z.min_l by lia.
  apply take_ge. rewrite length_drop. unfold len in *. lia.
Qed.

Lemma slice_range (s : bytes) (k n : Z) :
  0 <= k -> 0 <= n -> k + n <= len s ->
  Uint8Array.slice s k (Some (k + n)) = take (Z.to_nat n) (drop (Z.to_nat k) s).
Proof.
  intros Hk Hn Hfit. unfold Uint8Array.slice, Uint8Array.relative.
  destruct (Z.ltb_spec k 0); [lia|].
  destruct (Z.ltb_spec (k + n) 0); [lia|].
  rewrite !Z.min_l by lia. do 2 f_equal. lia.
Qed.

(** A write at the end of what has been written, [w], into the room [z]
    that is left. *)
Lemma set_append (w z r : bytes) :
  len r <= len z ->
  Uint8Array.set (w ++ z) r (len w) = Return ((w ++ r) ++ drop (length r) z).
Proof.
  intros Hfit. unfold Uint8Array.set. pose proof (len_nonneg w).
  destruct (Z.ltb_spec (len w) 0); [lia|].
  assert (Hlen : len (w ++ z) = len w + len z)
    by (unfold len; rewrite length_app; lia).
  destruct (Z.gtb_spec (len r + len w) (len (w ++ z))); [lia|].
  unfold len. rewrite Nat2Z.id, take_app_length, <- Nat2Z.inj_add, Nat2Z.id.
  rewrite drop_app_add. now rewrite <- app_assoc.
Qed.

Lemma set_overflow (w z r : bytes) :
  len z < len r ->
  Uint8Array.set (w ++ z) r (len w) = Throw EngineRangeError.
Proof.
  intros Hfit. unfold Uint8Array.set. pose proof (len_nonneg w).
  destruct (Z.ltb_spec (len w) 0); [lia|].
  assert (Hlen : len (w ++ z) = len w + len z)
    by (unfold len; rewrite length_app; lia).
  destruct (Z.gtb_spec (len r + len w) (len (w ++ z))); [reflexivity | lia].
Qed.

Lemma len_app (a b : bytes) : len (a ++ b) = len a + len b.
Proof. unfold len. rewrite length_app. lia. Qed.

Lemma len_drop (a : bytes) (n : nat) :
  (n <= length a)%nat -> len (drop n a) = len a - Z.of_nat n.
Proof. intros H. unfold len. rewrite length_drop. lia. Qed.

(** The copying loop over a run of whole slices that fit: they are written
    one after the other. *)
Lemma copy_slices_run (run front back : list bytes) begin offset beginOffset
    (w z : bytes) :
  (begin < length front)%nat ->
  sum_lengths run <= len z ->
  StreamReader.copy_slices (front ++ run ++ back) begin offset beginOffset
    (seq (length front) (length run)) (w ++ z) (len w)
  = Return ((w ++ concat run) ++ drop (length (concat run)) z,
            len w + sum_lengths run).
Proof.
  revert front w z. induction run as [|r run IH]; intros front w z Hb Hfit.
  - cbn. rewrite app_nil_r, Z.add_0_r. reflexivity.
  - rewrite sum_lengths_cons in Hfit. pose proof (sum_lengths_nonneg run).
    pose proof (len_nonneg r).
    cbn [length seq StreamReader.copy_slices]. rewrite <- app_comm_cons.
    rewrite list_lookup_middle by reflexivity.
    destruct (Nat.eqb_spec (length front) begin); [lia|].
    rewrite set_append by lia.
    rewrite <- len_app.
    replace (front ++ r :: run ++ back) with ((front ++ [r]) ++ run ++ back)
      by (now rewrite <- app_assoc).
    replace (S (length front)) with (length (front ++ [r]))
      by (rewrite length_app; cbn; lia).
    rewrite IH.
    + rewrite drop_drop, sum_lengths_cons, len_app. cbn [concat].
      rewrite length_app, <- !app_assoc. do 2 f_equal. lia.
    + rewrite length_app. cbn. lia.
    + rewrite len_drop; unfold len in *; lia.
Qed.

Lemma scan_end_snd_ge (rest : list bytes) e eo limit :
  eo <= (StreamReader.scan_end rest e eo limit).2.
Proof.
  revert e eo. induction rest as [|p rest IH]; intros e eo; cbn; [lia|].
  pose proof (len_nonneg p).
  destruct (_ <? _); [|cbn; lia].
  specialize (IH (S e) (eo + len p)). lia.
Qed.

Lemma scan_end_cons_snd_ge (rest : list bytes) (s : bytes) e eo limit :
  eo + len s <= (StreamReader.scan_end (s :: rest) e eo limit).2.
Proof.
  cbn. destruct (_ <? _); [apply scan_end_snd_ge | cbn; lia].
Qed.

(** *** The range asked for, on a stream cut at its first slice *)

Lemma logical_range_cut (pre rest : list bytes) (s : bytes) (length k : Z) :
  0 <= k <= len s ->
  logical_range (pre ++ s :: rest) length (sum_lengths pre + k)
  = take (Z.to_nat length) (drop (Z.to_nat k) s ++ concat rest).
Proof.
  intros Hk. unfold logical_range. rewrite concat_app. cbn [concat].
  rewrite sum_lengths_concat. unfold len in *.
  rewrite Z2Nat.inj_add, Nat2Z.id by lia.
  rewrite drop_app_add, drop_app_le by lia. reflexivity.
Qed.

(** The first loop of [read] finds the slice that holds [offset], and the
    fields of that slice. *)
Lemma read_range_begin (pre post : list bytes) (s : bytes) (length k : Z) :
  0 <= k < len s ->
  StreamReader.read_range (pre ++ s :: post) length (sum_lengths pre + k)
  = let begin := List.length pre in
    let beginOffset := sum_lengths pre in
    let offset := sum_lengths pre + k in
    let '(end_, endOffset) :=
      StreamReader.scan_end (s :: post) begin beginOffset (offset + length) in
    let buflen := Z.min length (endOffset - beginOffset) in
    if len s >=? k + buflen
    then Return (VUint8Array (Uint8Array.slice s k (Some (k + buflen))))
    else
      match Uint8Array.new buflen with
      | Throw e => Throw e
      | Return data =>
          match StreamReader.copy_slices (pre ++ s :: post) begin offset
                  beginOffset (seq begin (S end_ - begin)) data 0 with
          | Throw e => Throw e
          | Return (data, _) => Return (VUint8Array data)
          end
      end.
Proof.
  intros Hk. unfold StreamReader.read_range.
  rewrite (scan_begin_stop pre post s 0 0) by lia. cbn [Nat.add].
  destruct (Z.leb_spec (0 + sum_lengths pre + len s) (sum_lengths pre + k));
    [lia|].
  rewrite list_lookup_middle by reflexivity. rewrite drop_app_length.
  replace (0 + sum_lengths pre + len s - len s) with (sum_lengths pre) by lia.
  replace (sum_lengths pre + k - sum_lengths pre) with k by lia.
  reflexivity.
Qed.

(** A range that lies within one slice is returned as it is in the
    stream. *)
Lemma read_within_slice (pre post : list bytes) (s : bytes) (length k : Z) :
  0 <= k < len s -> 0 <= length -> k + length <= len s ->
  StreamReader.read_range (pre ++ s :: post) length (sum_lengths pre + k)
  = Return (VUint8Array
      (logical_range (pre ++ s :: post) length (sum_lengths pre + k))).
Proof.
  intros Hk Hlen Hfit. rewrite read_range_begin by lia. cbv zeta.
  pose proof (scan_end_cons_snd_ge post s (List.length pre) (sum_lengths pre)
                (sum_lengths pre + k + length)) as Hge.
  destruct (StreamReader.scan_end _ _ _ _) as [e eo]. cbn [snd] in Hge.
  rewrite Z.min_l by lia.
  destruct (Z.geb_spec (len s) (k + length)); [|lia].
  rewrite slice_range, logical_range_cut by lia.
  rewrite take_app_le; [reflexivity|].
  rewrite length_drop. unfold len in *. lia.
Qed.

(** The copying loop from the first slice of the range over the whole
    slices [run] that follow it, when all of that fits. *)
Lemma copy_slices_from_begin (pre run back : list bytes) (s z : bytes) (k : Z) :
  0 <= k <= len s ->
  len s - k + sum_lengths run <= len z ->
  let w := drop (Z.to_nat k) s ++ concat run in
  StreamReader.copy_slices (pre ++ s :: run ++ back) (length pre)
    (sum_lengths pre + k) (sum_lengths pre)
    (seq (length pre) (S (length run))) z 0
  = Return (w ++ drop (length w) z, len w).
Proof.
  intros Hk Hfit w. subst w. pose proof (sum_lengths_nonneg run).
  assert (Hd : len (drop (Z.to_nat k) s) = len s - k)
    by (rewrite len_drop; unfold len in *; lia).
  cbn [seq StreamReader.copy_slices].
  rewrite list_lookup_middle by reflexivity. rewrite Nat.eqb_refl.
  replace (sum_lengths pre + k - sum_lengths pre) with k by lia.
  rewrite slice_from by lia.
  change z with ([] ++ z) at 1. change 0 with (len []) at 1.
  rewrite set_append by lia. cbn [app]. change (len []) with 0.
  rewrite Z.add_0_l.
  replace (pre ++ s :: run ++ back) with ((pre ++ [s]) ++ run ++ back)
    by (now rewrite <- app_assoc).
  replace (S (length pre)) with (length (pre ++ [s]))
    by (rewrite length_app; cbn; lia).
  rewrite copy_slices_run.
  - rewrite drop_drop, len_app, length_app, <- sum_lengths_concat.
    reflexivity.
  - rewrite length_app. cbn. lia.
  - rewrite len_drop; unfold len in *; lia.
Qed.

(** A range that runs over more than one slice and ends in the slice [t]
    is returned when it ends where [t] ends, and ends in the RangeError of
    [data.set] when it ends before. *)
Lemma read_spanning (pre mid post : list bytes) (s t : bytes) (n k : Z) :
  0 <= k < len s ->
  len s + sum_lengths mid < k + n <= len s + sum_lengths mid + len t ->
  let slices := pre ++ s :: mid ++ t :: post in
  StreamReader.read_range slices n (sum_lengths pre + k)
  = if k + n =? len s + sum_lengths mid + len t
    then Return (VUint8Array (logical_range slices n (sum_lengths pre + k)))
    else Throw EngineRangeError.
Proof.
  intros Hk Hr slices. subst slices.
  pose proof (sum_lengths_nonneg mid). pose proof (len_nonneg t).
  rewrite read_range_begin by lia. cbv zeta.
  rewrite (app_comm_cons mid (t :: post) s).
  rewrite scan_end_stop by (rewrite sum_lengths_cons; lia).
  rewrite sum_lengths_cons. cbn [length].
  rewrite Z.min_l by lia.
  destruct (Z.geb_spec (len s) (k + n)); [lia|].
  unfold Uint8Array.new. destruct (Z.ltb_spec n 0); [lia|].
  replace (S (length pre + S (length mid)) - length pre)%nat
    with (S (S (length mid))) by lia.
  rewrite (seq_S (S (length mid))), copy_slices_app.
  rewrite <- app_comm_cons.
  set (z := replicate (Z.to_nat n) x00).
  assert (Hz : len z = n)
    by (unfold len, z; rewrite length_replicate; lia).
  rewrite copy_slices_from_begin by lia.
  set (w := drop (Z.to_nat k) s ++ concat mid).
  assert (Hw : len w = len s - k + sum_lengths mid).
  { unfold w. rewrite len_app, len_drop, <- sum_lengths_concat;
      unfold len in *; lia. }
  cbn [StreamReader.copy_slices].
  replace (pre ++ s :: mid ++ t :: post) with ((pre ++ s :: mid) ++ t :: post)
    by (now rewrite <- app_assoc).
  replace (length pre + S (length mid))%nat with (length (pre ++ s :: mid))
    by (rewrite length_app; reflexivity).
  rewrite list_lookup_middle by reflexivity.
  destruct (Nat.eqb_spec (length (pre ++ s :: mid)) (length pre)) as [He|_];
    [rewrite length_app in He; cbn in He; lia|].
  assert (Hroom : len (drop (length w) z) = n - len w)
    by (rewrite len_drop; unfold len in *; lia).
  destruct (Z.eqb_spec (k + n) (len s + sum_lengths mid + len t)).
  - rewrite set_append by lia. cbn [StreamReader.copy_slices].
    do 2 f_equal.
    rewrite (drop_ge (drop _ z)) by (unfold len in *; lia).
    rewrite app_nil_r.
    replace ((pre ++ s :: mid) ++ t :: post) with (pre ++ s :: mid ++ t :: post)
      by (now rewrite <- app_assoc).
    rewrite logical_range_cut, concat_app by lia. cbn [concat].
    rewrite !app_assoc. fold w. symmetry. apply take_app_length'.
    rewrite length_app. unfold len in *. lia.
  - rewrite set_overflow by lia. reflexivity.
Qed.

Lemma sum_lengths_zero_concat (l : list bytes) :
  sum_lengths l = 0 -> concat l = [].
Proof.
  rewrite sum_lengths_concat. unfold len. intros H.
  apply nil_length_inv. lia.
Qed.

(** A range that reaches beyond the end of the stream is returned, cut
    off, only when it starts where a slice starts and no byte follows that
    slice; otherwise the copying loop runs into [slices[slices.length]]
    and [read] ends in a TypeError. *)
Lemma read_truncated (pre post : list bytes) (s : bytes) (n k : Z) :
  0 <= k < len s ->
  len s + sum_lengths post < k + n ->
  let slices := pre ++ s :: post in
  StreamReader.read_range slices n (sum_lengths pre + k)
  = if (k =? 0) && (sum_lengths post =? 0)
    then Return (VUint8Array (logical_range slices n (sum_lengths pre + k)))
    else Throw EngineTypeError.
Proof.
  intros Hk Hr slices. subst slices.
  pose proof (sum_lengths_nonneg post).
  rewrite read_range_begin by lia. cbv zeta.
  rewrite scan_end_all by (rewrite sum_lengths_cons; lia).
  rewrite sum_lengths_cons. cbn [length].
  set (buflen := Z.min n (sum_lengths pre + (len s + sum_lengths post)
                          - sum_lengths pre)).
  assert (Hbuf : len s - k + sum_lengths post <= buflen
                 /\ buflen <= len s + sum_lengths post) by (subst buflen; lia).
  destruct (Z.eqb_spec k 0) as [->|Hk0];
    [destruct (Z.eqb_spec (sum_lengths post) 0) as [Hp|Hp]|]; cbn [andb].
  - (* from the start of the last slice that holds bytes *)
    destruct (Z.geb_spec (len s) (0 + buflen)); [|lia].
    rewrite (slice_range s 0 buflen) by lia.
    rewrite (logical_range_cut pre post s n 0) by lia.
    rewrite (sum_lengths_zero_concat post Hp), app_nil_r.
    change (Z.to_nat 0) with 0%nat. rewrite drop_0.
    rewrite !take_ge by (unfold len in *; lia). reflexivity.
  - destruct (Z.geb_spec (len s) (0 + buflen)); [lia|].
    unfold Uint8Array.new. destruct (Z.ltb_spec buflen 0); [lia|].
    replace (S (length pre + S (length post)) - length pre)%nat
      with (S (S (length post))) by lia.
    rewrite (seq_S (S (length post))), copy_slices_app.
    rewrite <- (app_nil_r post) at 1.
    rewrite copy_slices_from_begin
      by (try (unfold len; rewrite length_replicate; fold (len s)); lia).
    cbn [StreamReader.copy_slices].
    rewrite lookup_ge_None_2; [reflexivity|].
    rewrite length_app. cbn [length]. lia.
  - destruct (Z.geb_spec (len s) (k + buflen)); [lia|].
    unfold Uint8Array.new. destruct (Z.ltb_spec buflen 0); [lia|].
    replace (S (length pre + S (length post)) - length pre)%nat
      with (S (S (length post))) by lia.
    rewrite (seq_S (S (length post))), copy_slices_app.
    rewrite <- (app_nil_r post) at 1.
    rewrite copy_slices_from_begin
      by (try (unfold len; rewrite length_replicate; fold (len s)); lia).
    cbn [StreamReader.copy_slices].
    rewrite lookup_ge_None_2; [reflexivity|].
    rewrite length_app. cbn [length]. lia.
Qed.

(** *** Every range *)

Lemma locate (slices : list bytes) (x : Z) :
  0 <= x < sum_lengths slices ->
  exists pre s post,
    slices = pre ++ s :: post
    /\ sum_lengths pre <= x < sum_lengths pre + len s.
Proof.
  revert x. induction slices as [|s rest IH]; intros x Hx.
  - change (sum_lengths []) with 0 in Hx. lia.
  - rewrite sum_lengths_cons in Hx.
    destruct (Z.lt_ge_cases x (len s)) as [Hlt|Hge].
    + exists [], s, rest. change (sum_lengths []) with 0. split; [reflexivity | lia].
    + destruct (IH (x - len s)) as (pre & s' & post & -> & Hr); [lia|].
      exists (s :: pre), s', post. rewrite sum_lengths_cons.
      split; [reflexivity | lia].
Qed.

Lemma locate_end (slices : list bytes) (x : Z) :
  0 < x <= sum_lengths slices ->
  exists mid t post,
    slices = mid ++ t :: post
    /\ sum_lengths mid < x <= sum_lengths mid + len t.
Proof.
  revert x. induction slices as [|s rest IH]; intros x Hx.
  - change (sum_lengths []) with 0 in Hx. lia.
  - rewrite sum_lengths_cons in Hx.
    destruct (Z.le_gt_cases x (len s)) as [Hle|Hgt].
    + exists [], s, rest. change (sum_lengths []) with 0. split; [reflexivity | lia].
    + destruct (IH (x - len s)) as (mid & t & post & -> & Hr); [lia|].
      exists (s :: mid), t, post. rewrite sum_lengths_cons.
      split; [reflexivity | lia].
Qed.

(** On a range that starts within the stream, [read] returns the bytes of
    the range, cut off at the end of the stream, or it throws: it never
    returns other bytes. *)
Lemma read_range_or_throw (slices : list bytes) (n offset : Z) :
  0 <= n -> 0 <= offset < sum_lengths slices ->
  StreamReader.read_range slices n offset
  = Return (VUint8Array (logical_range slices n offset))
  \/ StreamReader.read_range slices n offset = Throw EngineRangeError
  \/ StreamReader.read_range slices n offset = Throw EngineTypeError.
Proof.
  intros Hn Hoff.
  destruct (locate slices offset Hoff) as (pre & s & post & -> & Hs).
  replace offset with (sum_lengths pre + (offset - sum_lengths pre)) by lia.
  set (k := offset - sum_lengths pre) in *.
  assert (Hk : 0 <= k < len s) by (subst k; lia).
  destruct (Z.le_gt_cases (k + n) (len s)) as [Hin|Hout].
  { left. now apply read_within_slice. }
  destruct (Z.le_gt_cases (k + n - len s) (sum_lengths post)) as [Hle|Hgt].
  - destruct (locate_end post (k + n - len s)) as (mid & t & post' & -> & Hr);
      [lia|].
    rewrite (read_spanning pre mid post' s t n k) by lia.
    destruct (_ =? _); auto.
  - rewrite (read_truncated pre post s n k) by lia.
    destruct (_ && _); auto.
Qed.

(** ** The scenarios of the specification that the code meets *)

Example scenario_two_slices :
  let self := run_calls [AddSlice (VUint8Array [x41; x42]);
                         AddSlice (VUint8Array [x43])] constructor in
  StreamReader.length self = 3
  /\ read self (VInt 3) (VInt 0) = Return (VUint8Array [x41; x42; x43])
  /\ read self (VInt 2) (VInt 1) = Return (VUint8Array [x42; x43]).
Proof. repeat split. Qed.

Example scenario_truncated :
  let self := run_calls [AddSlice (VUint8Array [x41; x42; x43])] constructor in
  read self (VInt 5) (VInt 0) = Return (VUint8Array [x41; x42; x43]).
Proof. reflexivity. Qed.

Example scenario_no_data :
  read constructor (VInt 1) (VInt 0) = Return VNull.
Proof. reflexivity. Qed.

Example scenario_not_found :
  let self := run_calls [AddSlice (VUint8Array [x41; x42])] constructor in
  search self (VUint8Array [x99]) (VInt 0) = Return (-1).
Proof. reflexivity. Qed.

(** ** Where the code departs from its specification *)

(** C1. The code does not meet the claim. On the stream of the slices
    [0x41,0x42] and [0x43,0x44], the range of 2 bytes at offset 1 holds
    [0x42,0x43], but [read(2, 1)] ends in the RangeError of [data.set]:
    the copying loop writes the whole last slice of the range into a
    buffer sized for the range. The range of 5 bytes at offset 1 holds the
    3 bytes left, but [read(5, 1)] ends in a TypeError: the loop goes on
    to [slices[slices.length]]. *)
Theorem read_across_slices_throws :
  let self := run_calls [AddSlice (VUint8Array [x41; x42]);
                         AddSlice (VUint8Array [x43; x44])] constructor in
  logical_range (fields_slices self) 2 1 = [x42; x43]
  /\ read self (VInt 2) (VInt 1) = Throw EngineRangeError
  /\ logical_range (fields_slices self) 5 1 = [x42; x43; x44]
  /\ read self (VInt 5) (VInt 1) = Throw EngineTypeError.
Proof. repeat split. Qed.

(** C2. The code does not meet the claim. In the stream of the one slice
    [0x41,0x41,0x42] the pattern [0x41,0x42] occurs at position 1 only, so
    the claim asks for 3; [search] returns 2, taking position 0 for a
    match: the confirming loop compares [window[i]] with [slice[i]] and
    never looks at the pattern beyond its first byte. *)
Theorem search_reports_false_match :
  let self := run_calls [AddSlice (VUint8Array [x41; x41; x42])] constructor in
  logical_range (fields_slices self) 2 0 <> [x41; x42]
  /\ logical_range (fields_slices self) 2 1 = [x41; x42]
  /\ search self (VUint8Array [x41; x42]) (VInt 0) = Return 2.
Proof. repeat split. discriminate. Qed.

(** C3. The code does not meet the claim. In the stream of the slices
    [0x61,0x62] and [0x63,0x64] the pattern [0x62,0x63] occurs at
    position 1, across the two slices, so the claim asks for a match
    (whose end is 1 + 2 = 3; the claim counts 4); [search] returns -1,
    because in each slice it tries only the positions at which the whole
    pattern fits in that slice. *)
Theorem search_misses_straddling_match :
  let self := run_calls [AddSlice (VUint8Array [x61; x62]);
                         AddSlice (VUint8Array [x63; x64])] constructor in
  logical_range (fields_slices self) 2 1 = [x62; x63]
  /\ search self (VUint8Array [x62; x63]) (VInt 0) = Return (-1).
Proof. repeat split. Qed.

(** * Further properties of the code *)

(** ** The range as bytes of the slices *)

Lemma logical_range_within (pre post : list bytes) (s : bytes) (n k : Z) :
  0 <= k <= len s -> k + n <= len s ->
  logical_range (pre ++ s :: post) n (sum_lengths pre + k)
  = take (Z.to_nat n) (drop (Z.to_nat k) s).
Proof.
  intros Hk Hfit. rewrite logical_range_cut by lia.
  apply take_app_le. rewrite length_drop. unfold len in *. lia.
Qed.

Lemma logical_range_exact (pre mid post : list bytes) (s t : bytes) (n k : Z) :
  0 <= k <= len s ->
  k + n = len s + sum_lengths mid + len t ->
  logical_range (pre ++ s :: mid ++ t :: post) n (sum_lengths pre + k)
  = drop (Z.to_nat k) s ++ concat mid ++ t.
Proof.
  intros Hk Hn. rewrite logical_range_cut, concat_app by lia. cbn [concat].
  rewrite !app_assoc. apply take_app_length'.
  rewrite !length_app, length_drop.
  pose proof (sum_lengths_concat mid). unfold len in *. lia.
Qed.

Lemma drop_concat_cut (pre rest : list bytes) (s : bytes) (k : Z) :
  0 <= k <= len s ->
  drop (Z.to_nat (sum_lengths pre + k)) (concat (pre ++ s :: rest))
  = drop (Z.to_nat k) s ++ concat rest.
Proof.
  intros Hk. rewrite concat_app. cbn [concat].
  rewrite sum_lengths_concat. unfold len in *.
  rewrite Z2Nat.inj_add, Nat2Z.id by lia.
  rewrite drop_app_add, drop_app_le by lia. reflexivity.
Qed.

(** ** Reads that succeed *)

(** X1. A range that starts in a slice and ends in the same slice is
    returned as the bytes of that slice, whatever slices come before and
    after: an empty array when the length is 0. *)
Theorem read_within_one_slice
    (self : fields) (pre post : list bytes) (s : bytes) (n k : Z) :
  fields_slices self = pre ++ s :: post ->
  0 <= k < len s -> 0 <= n -> k + n <= len s ->
  read self (VInt n) (VInt (sum_lengths pre + k))
  = Return (VUint8Array (take (Z.to_nat n) (drop (Z.to_nat k) s)))
  /\ take (Z.to_nat n) (drop (Z.to_nat k) s)
     = logical_range (fields_slices self) n (sum_lengths pre + k).
Proof.
  intros Hs Hk Hn Hfit. unfold read. cbn [default_param]. rewrite Hs.
  rewrite read_within_slice, logical_range_within by lia. auto.
Qed.

Lemma read_within_one_slice_witness :
  read (stream [[x41; x42]; [x43; x44; x45]]) (VInt 2)
       (VInt (sum_lengths [[x41; x42]] + 1))
  = Return (VUint8Array (take (Z.to_nat 2) (drop (Z.to_nat 1) [x43; x44; x45])))
  /\ take (Z.to_nat 2) (drop (Z.to_nat 1) [x43; x44; x45])
     = logical_range (fields_slices (stream [[x41; x42]; [x43; x44; x45]])) 2
         (sum_lengths [[x41; x42]] + 1).
Proof.
  apply (read_within_one_slice (stream [[x41; x42]; [x43; x44; x45]])
           [[x41; x42]] [] [x43; x44; x45] 2 1);
    [reflexivity | vm_compute; split; [discriminate | reflexivity]
     | lia | vm_compute; discriminate].
Defined.

Lemma read_range_to_boundary (l1 l2 : list bytes) (offset : Z) :
  0 <= offset < sum_lengths l1 ->
  StreamReader.read_range (l1 ++ l2) (sum_lengths l1 - offset) offset
  = Return (VUint8Array (drop (Z.to_nat offset) (concat l1))).
Proof.
  intros Hoff.
  destruct (locate l1 offset Hoff) as (pre & s & post & -> & Hs).
  rewrite sum_lengths_app, sum_lengths_cons.
  replace offset with (sum_lengths pre + (offset - sum_lengths pre)) at 2 3
    by lia.
  remember (offset - sum_lengths pre) as k eqn:Ek.
  remember (sum_lengths pre + (len s + sum_lengths post) - offset) as n eqn:En.
  assert (Hk : 0 <= k < len s) by lia.
  pose proof (sum_lengths_nonneg post) as Hpost.
  rewrite <- app_assoc, <- app_comm_cons, drop_concat_cut by lia.
  destruct (Z.eq_dec (sum_lengths post) 0) as [Hz|Hnz].
  - rewrite read_within_slice, logical_range_within by lia.
    rewrite (sum_lengths_zero_concat post Hz), app_nil_r.
    rewrite take_ge; [reflexivity|].
    rewrite length_drop. unfold len in *. lia.
  - destruct (locate_end post (sum_lengths post))
      as (mid & t & post' & -> & Hr); [lia|].
    rewrite sum_lengths_app, sum_lengths_cons in *.
    pose proof (sum_lengths_nonneg post') as Hpost'.
    rewrite <- app_assoc, <- app_comm_cons.
    rewrite (read_spanning pre mid (post' ++ l2) s t n k) by lia.
    destruct (Z.eqb_spec (k + n) (len s + sum_lengths mid + len t)); [|lia].
    rewrite logical_range_exact by lia.
    rewrite concat_app. cbn [concat].
    rewrite (sum_lengths_zero_concat post') by lia.
    now rewrite app_nil_r.
Qed.

(** X2. A range that ends where a slice ends is returned, across however
    many slices it runs: for [l1] the slices up to that end and an offset
    within them, [read(sum of l1 - offset, offset)] returns the bytes of
    [l1] from the offset on. With no slice after [l1] this is the read of
    everything from the offset to the end of the stream. *)
Theorem read_up_to_slice_end
    (self : fields) (l1 l2 : list bytes) (offset : Z) :
  fields_slices self = l1 ++ l2 ->
  0 <= offset < sum_lengths l1 ->
  read self (VInt (sum_lengths l1 - offset)) (VInt offset)
  = Return (VUint8Array (drop (Z.to_nat offset) (concat l1))).
Proof.
  intros Hs Hoff. unfold read. cbn [default_param]. rewrite Hs.
  now apply read_range_to_boundary.
Qed.

Lemma read_up_to_slice_end_witness :
  read (stream [[x41; x42]; [x43]; [x44; x45]])
       (VInt (sum_lengths [[x41; x42]; [x43]] - 1)) (VInt 1)
  = Return (VUint8Array (drop (Z.to_nat 1) (concat [[x41; x42]; [x43]]))).
Proof.
  apply (read_up_to_slice_end (stream [[x41; x42]; [x43]; [x44; x45]])
           [[x41; x42]; [x43]] [[x44; x45]] 1);
    [reflexivity | vm_compute; split; [discriminate | reflexivity]].
Defined.

(** ** Reads that throw *)

(** X3. A range that runs over more than one slice and ends strictly
    inside a slice always ends in the RangeError of [data.set]. *)
Theorem read_ending_inside_later_slice_throws
    (self : fields) (pre mid post : list bytes) (s t : bytes) (n k : Z) :
  fields_slices self = pre ++ s :: mid ++ t :: post ->
  0 <= k < len s ->
  len s + sum_lengths mid < k + n < len s + sum_lengths mid + len t ->
  read self (VInt n) (VInt (sum_lengths pre + k)) = Throw EngineRangeError.
Proof.
  intros Hs Hk Hr. unfold read. cbn [default_param]. rewrite Hs.
  rewrite read_spanning by lia.
  destruct (Z.eqb_spec (k + n) (len s + sum_lengths mid + len t)); [lia|].
  reflexivity.
Qed.

Lemma read_ending_inside_later_slice_throws_witness :
  read (stream [[x41; x42]; [x43]; [x44; x45]]) (VInt 3)
       (VInt (sum_lengths [] + 1))
  = Throw EngineRangeError.
Proof.
  apply (read_ending_inside_later_slice_throws
           (stream [[x41; x42]; [x43]; [x44; x45]])
           [] [[x43]] [] [x41; x42] [x44; x45] 3 1);
    [reflexivity | vm_compute; split; [discriminate | reflexivity]
     | vm_compute; split; reflexivity].
Defined.

(** X4. A read that asks for more bytes than the stream holds from the
    offset on returns the bytes that are there only when the offset is the
    start of a slice and no byte follows that slice; in every other case
    it ends in a TypeError. *)
Theorem read_beyond_stream_end
    (self : fields) (pre post : list bytes) (s : bytes) (n k : Z) :
  fields_slices self = pre ++ s :: post ->
  0 <= k < len s ->
  len s + sum_lengths post < k + n ->
  read self (VInt n) (VInt (sum_lengths pre + k))
  = if (k =? 0) && (sum_lengths post =? 0)
    then Return (VUint8Array s)
    else Throw EngineTypeError.
Proof.
  intros Hs Hk Hr. unfold read. cbn [default_param]. rewrite Hs.
  rewrite read_truncated by lia.
  destruct (Z.eqb_spec k 0) as [->|]; [|reflexivity].
  destruct (Z.eqb_spec (sum_lengths post) 0) as [Hz|]; [|reflexivity].
  cbn [andb]. rewrite logical_range_cut by lia.
  rewrite (sum_lengths_zero_concat post Hz), app_nil_r.
  change (Z.to_nat 0) with 0%nat. rewrite drop_0.
  rewrite take_ge by (unfold len in *; lia). reflexivity.
Qed.

Lemma read_beyond_stream_end_witness :
  read (stream [[x41; x42]; [x43; x44]]) (VInt 5) (VInt (sum_lengths [] + 1))
  = (if (1 =? 0) && (sum_lengths [[x43; x44]] =? 0)
     then Return (VUint8Array [x41; x42])
     else Throw EngineTypeError)
  /\ read (stream [[x41; x42]; [x43; x44]]) (VInt 5)
          (VInt (sum_lengths [[x41; x42]] + 0))
     = (if (0 =? 0) && (sum_lengths [] =? 0)
        then Return (VUint8Array [x43; x44])
        else Throw EngineTypeError).
Proof.
  split.
  - apply (read_beyond_stream_end (stream [[x41; x42]; [x43; x44]])
             [] [[x43; x44]] [x41; x42] 5 1);
      [reflexivity | vm_compute; split; [discriminate | reflexivity]
       | vm_compute; reflexivity].
  - apply (read_beyond_stream_end (stream [[x41; x42]; [x43; x44]])
             [[x41; x42]] [] [x43; x44] 5 0);
      [reflexivity | vm_compute; split; [discriminate | reflexivity]
       | vm_compute; reflexivity].
Defined.

(** X5. [read] never returns bytes other than those asked for: with a
    length and an offset that are not negative, what it returns is [null],
    and then the offset is at or beyond the end of the stream, or the
    bytes of the range, cut off at the end of the stream. *)
Theorem read_returns_the_range_or_null
    (self : fields) (n offset : Z) (v : value) :
  0 <= n -> 0 <= offset ->
  read self (VInt n) (VInt offset) = Return v ->
  (v = VNull /\ sum_lengths (fields_slices self) <= offset)
  \/ (v = VUint8Array (logical_range (fields_slices self) n offset)
      /\ offset < sum_lengths (fields_slices self)).
Proof.
  intros Hn Hoff. unfold read. cbn [default_param].
  destruct (Z.le_gt_cases (sum_lengths (fields_slices self)) offset) as [Hge|Hlt].
  - rewrite read_range_beyond by lia. intros [= <-]. auto.
  - destruct (read_range_or_throw (fields_slices self) n offset)
      as [-> | [-> | ->]]; try lia; try discriminate.
    intros [= <-]. right. split; [reflexivity | lia].
Qed.

Lemma read_returns_the_range_or_null_witness :
  (VUint8Array [x42; x43] = VNull
   /\ sum_lengths (fields_slices (stream [[x41; x42]; [x43]])) <= 1)
  \/ (VUint8Array [x42; x43]
      = VUint8Array (logical_range (fields_slices (stream [[x41; x42]; [x43]])) 2 1)
      /\ 1 < sum_lengths (fields_slices (stream [[x41; x42]; [x43]]))).
Proof.
  apply (read_returns_the_range_or_null (stream [[x41; x42]; [x43]]) 2 1
           (VUint8Array [x42; x43]));
    [lia | lia | reflexivity].
Defined.

(** ** Reads and later appends *)

Lemma read_range_app (l more : list bytes) (n offset : Z) :
  0 <= n -> 0 <= offset < sum_lengths l -> offset + n <= sum_lengths l ->
  StreamReader.read_range (l ++ more) n offset
  = StreamReader.read_range l n offset.
Proof.
  intros Hn Hoff Hin.
  destruct (locate l offset Hoff) as (pre & s & post & -> & Hs).
  rewrite sum_lengths_app, sum_lengths_cons in *.
  replace offset with (sum_lengths pre + (offset - sum_lengths pre)) by lia.
  remember (offset - sum_lengths pre) as k eqn:Ek.
  assert (Hk : 0 <= k < len s) by lia.
  rewrite <- app_assoc, <- app_comm_cons.
  destruct (Z.le_gt_cases (k + n) (len s)) as [Hfit|Hout].
  - rewrite !read_within_slice, !logical_range_within by lia. reflexivity.
  - destruct (locate_end post (k + n - len s))
      as (mid & t & post' & -> & Hr); [lia|].
    rewrite <- app_assoc, <- app_comm_cons.
    rewrite !read_spanning by lia.
    destruct (Z.eqb_spec (k + n) (len s + sum_lengths mid + len t));
      [|reflexivity].
    rewrite !logical_range_exact by lia. reflexivity.
Qed.

(** X6. What [read] gives for a range that lies within the stream does
    not change when more calls of [addSlice] and [addPayload] follow,
    whether they succeed or throw. *)
Theorem read_unchanged_by_later_appends
    (calls more : list call) (n offset : Z) :
  let self := run_calls calls constructor in
  0 <= n -> 0 <= offset < StreamReader.length self ->
  offset + n <= StreamReader.length self ->
  read (run_calls more self) (VInt n) (VInt offset)
  = read self (VInt n) (VInt offset).
Proof.
  intros self Hn Hoff Hin.
  pose proof (run_calls_consistent calls constructor eq_refl) as Hc.
  fold self in Hc. unfold consistent in Hc.
  unfold StreamReader.length in *. rewrite Hc in *.
  unfold read. cbn [default_param].
  rewrite (run_calls_appended more self). cbn [extend fields_slices].
  now apply read_range_app.
Qed.

Lemma read_unchanged_by_later_appends_witness :
  read (run_calls [AddSlice (VUint8Array [x44]); AddSlice VNull]
          (run_calls [AddSlice (VUint8Array [x41; x42]);
                      AddSlice (VUint8Array [x43])] constructor))
       (VInt 2) (VInt 1)
  = read (run_calls [AddSlice (VUint8Array [x41; x42]);
                     AddSlice (VUint8Array [x43])] constructor)
         (VInt 2) (VInt 1).
Proof.
  apply (read_unchanged_by_later_appends
           [AddSlice (VUint8Array [x41; x42]); AddSlice (VUint8Array [x43])]
           [AddSlice (VUint8Array [x44]); AddSlice VNull] 2 1);
    [lia | vm_compute; split; [discriminate | reflexivity]
     | vm_compute; discriminate].
Defined.

(** ** Negative arguments *)

Lemma slice_negative_end (s : bytes) (k n : Z) :
  0 <= k < len s -> n < 0 ->
  Uint8Array.slice s k (Some (k + n))
  = if k + n <? 0
    then take (Z.to_nat (len s + n)) (drop (Z.to_nat k) s)
    else [].
Proof.
  intros Hk Hn. unfold Uint8Array.slice, Uint8Array.relative.
  destruct (Z.ltb_spec k 0); [lia|]. rewrite (Z.min_l k) by lia.
  destruct (Z.ltb_spec (k + n) 0).
  - f_equal. lia.
  - rewrite Z.min_l by lia.
    replace (Z.to_nat (Z.max (k + n - k) 0)) with 0%nat by lia.
    reflexivity.
Qed.

(** X7. A negative length is not an error. With an offset within the
    stream, at position [k] of the slice [s], [read(n, offset)] for
    [n < 0] returns without copying: an empty array when [k + n >= 0], and
    otherwise the [len s + n] bytes of [s] from position [k] on (none when
    that number is not positive): the end of the range is counted back
    from the end of the slice. *)
Theorem read_negative_length
    (self : fields) (pre post : list bytes) (s : bytes) (n k : Z) :
  fields_slices self = pre ++ s :: post ->
  0 <= k < len s -> n < 0 ->
  read self (VInt n) (VInt (sum_lengths pre + k))
  = Return (VUint8Array
      (if k + n <? 0
       then take (Z.to_nat (len s + n)) (drop (Z.to_nat k) s)
       else [])).
Proof.
  intros Hs Hk Hn. unfold read. cbn [default_param]. rewrite Hs.
  rewrite read_range_begin by lia. cbv zeta.
  pose proof (scan_end_cons_snd_ge post s (List.length pre) (sum_lengths pre)
                (sum_lengths pre + k + n)) as Hge.
  destruct (StreamReader.scan_end _ _ _ _) as [e eo]. cbn [snd] in Hge.
  rewrite Z.min_l by lia.
  destruct (Z.geb_spec (len s) (k + n)); [|lia].
  now rewrite slice_negative_end by lia.
Qed.

Lemma read_negative_length_witness :
  read (stream [[x41]; [x42; x43; x44]]) (VInt (-1))
       (VInt (sum_lengths [[x41]] + 0))
  = Return (VUint8Array
      (if 0 + -1 <? 0
       then take (Z.to_nat (len [x42; x43; x44] + -1))
                 (drop (Z.to_nat 0) [x42; x43; x44])
       else [])).
Proof.
  apply (read_negative_length (stream [[x41]; [x42; x43; x44]])
           [[x41]] [] [x42; x43; x44] (-1) 0);
    [reflexivity | vm_compute; split; [discriminate | reflexivity] | lia].
Defined.

(** X8. On the stream that holds no slice, a negative offset is not
    answered with [null] or -1: [read] and [search] (with a pattern that
    is not empty) end in a TypeError, raised by [slices[begin].length]. *)
Theorem negative_offset_on_empty_stream
    (self : fields) (n offset : Z) (b : byte) (pattern : bytes) :
  fields_slices self = [] -> offset < 0 ->
  read self (VInt n) (VInt offset) = Throw EngineTypeError
  /\ search self (VUint8Array (b :: pattern)) (VInt offset)
     = Throw EngineTypeError.
Proof.
  intros Hs Hoff. unfold read, search, StreamReader.read_range.
  cbn [default_param]. rewrite Hs. cbn [StreamReader.scan_begin].
  destruct (Z.leb_spec 0 offset); [lia|].
  destruct (Z.eqb_spec (len (b :: pattern)) 0) as [He|_];
    [unfold len in He; cbn in He; lia|].
  split; reflexivity.
Qed.

Lemma negative_offset_on_empty_stream_witness :
  read constructor (VInt 1) (VInt (-1)) = Throw EngineTypeError
  /\ search constructor (VUint8Array [x41]) (VInt (-1))
     = Throw EngineTypeError.
Proof.
  apply (negative_offset_on_empty_stream constructor 1 (-1) x41 []);
    [reflexivity | lia].
Defined.

(** ** Appends *)

(** X9. The store only grows at its end: whatever calls are made, the
    slices held before are still there, in their order, in front of the
    new ones, and the length has grown by the lengths of the new ones, so
    it never decreases. *)
Theorem appends_only_extend (calls : list call) (self : fields) :
  exists added : list bytes,
    fields_slices (run_calls calls self) = fields_slices self ++ added
    /\ StreamReader.length (run_calls calls self)
       = StreamReader.length self + sum_lengths added
    /\ StreamReader.length self <= StreamReader.length (run_calls calls self).
Proof.
  exists (concat (map appended_by calls)).
  rewrite run_calls_appended. unfold StreamReader.length, extend.
  cbn [fields_slices fields_length].
  pose proof (sum_lengths_nonneg (concat (map appended_by calls))).
  repeat split; lia.
Qed.

(** X10. [addPayload] succeeds exactly on an object whose constructor is
    named [Payload] and whose [slices] can be iterated and yields only
    [Uint8Array]s. *)
Theorem addPayload_succeeds_iff (payload : value) (self : fields) :
  fst (addPayload payload self) = Return tt
  <-> exists (slices : value) (ss : list bytes),
        payload = VObject "Payload" slices
        /\ iterate slices = Some (map VUint8Array ss).
Proof.
  split.
  - destruct payload; try discriminate.
    unfold addPayload. cbn [typeof constructor_name get_slices].
    cbn [String.eqb Ascii.eqb Bool.eqb negb orb].
    destruct (String.eqb_spec ctor "Payload") as [->|]; [|discriminate].
    cbn [negb]. destruct (iterate payload) as [elems|] eqn:Hit; [|discriminate].
    destruct (for_of_addSlice elems self) as (r & Hr & Hiff).
    rewrite Hr. cbn [fst]. intros Hok. apply Hiff in Hok.
    exists payload, (leading_slices elems). split; [reflexivity|].
    rewrite Hit. f_equal. exact Hok.
  - intros (slices & ss & -> & Hit).
    unfold addPayload. cbn [typeof constructor_name get_slices].
    cbn. rewrite Hit, for_of_addSlice_bytes. reflexivity.
Qed.

(** ** Searches *)

Lemma len_cons_pos (b : byte) (l : bytes) : 1 <= len (b :: l).
Proof. unfold len. cbn [length]. lia. Qed.

Lemma elem_eq_Some (x : option byte) (b : byte) :
  Uint8Array.elem_eq x (Some b) = true <-> x = Some b.
Proof.
  destruct x as [a|]; cbn; [|split; discriminate].
  split.
  - intros H%Byte.byte_dec_bl. now subst.
  - intros [= ->]. now apply Byte.byte_dec_lb.
Qed.

Lemma elem_eq_Some_l (b : byte) (y : option byte) :
  Uint8Array.elem_eq (Some b) y = true <-> y = Some b.
Proof.
  destruct y as [a|]; cbn; [|split; discriminate].
  split.
  - intros H%Byte.byte_dec_bl. now subst.
  - intros [= ->]. now apply Byte.byte_dec_lb.
Qed.

Lemma get_Some (s : bytes) (index : Z) (a : byte) :
  Uint8Array.get s index = Some a ->
  0 <= index < len s /\ s !! Z.to_nat index = Some a.
Proof.
  unfold Uint8Array.get. destruct (Z.ltb_spec index 0); [discriminate|].
  intros Hget. split; [|exact Hget].
  apply lookup_lt_Some in Hget. unfold len. lia.
Qed.

Lemma compare_window_S (window slice : bytes) (i todo : nat) :
  StreamReader.compare_window window slice i (S todo)
  = Uint8Array.elem_eq (Uint8Array.get window (Z.of_nat i))
                       (Uint8Array.get slice (Z.of_nat i)).
Proof.
  induction todo as [|todo IH].
  - cbn. now destruct (Uint8Array.elem_eq _ _).
  - change (StreamReader.compare_window window slice i (S (S todo)))
      with (if negb (Uint8Array.elem_eq (Uint8Array.get window (Z.of_nat i))
                       (Uint8Array.get slice (Z.of_nat i)))
            then false
            else StreamReader.compare_window window slice i (S todo)).
    rewrite IH. now destruct (Uint8Array.elem_eq _ _).
Qed.

Lemma search_slice_S self pattern front slice i todo index :
  StreamReader.search_slice self pattern front slice i (S todo) index
  = let next :=
      StreamReader.search_slice self pattern front slice i todo (index + 1) in
    if Uint8Array.elem_eq (Uint8Array.get slice index)
                          (Uint8Array.get pattern 0)
    then
      match read self (VInt (len pattern)) (VInt (front + index)) with
      | Throw e => Throw e
      | Return (VUint8Array window) =>
          if len window =? len pattern
          then
            if StreamReader.compare_window window slice i (length window)
            then Return (Some (front + index + len pattern))
            else next
          else next
      | Return _ => Throw EngineTypeError
      end
    else next.
Proof. reflexivity. Qed.

(** A position that [search] returns from a slice is the end of a
    candidate that the slice holds whole. *)
Lemma search_slice_Some self (b : byte) (ps : bytes) front slice i todo index p :
  StreamReader.search_slice self (b :: ps) front slice i todo index
  = Return (Some p) ->
  exists idx,
    index <= idx < index + Z.of_nat todo /\ 0 <= idx
    /\ p = front + idx + len (b :: ps).
Proof.
  revert index. induction todo as [|todo IH]; intros index;
    [discriminate|].
  rewrite search_slice_S. cbv zeta.
  assert (Hnext :
    StreamReader.search_slice self (b :: ps) front slice i todo (index + 1)
    = Return (Some p) ->
    exists idx, index <= idx < index + Z.of_nat (S todo) /\ 0 <= idx
                /\ p = front + idx + len (b :: ps)).
  { intros (idx & Hr & H0 & Hp)%IH. exists idx. repeat split; lia. }
  destruct (Uint8Array.elem_eq _ _) eqn:Heq; [|exact Hnext].
  apply elem_eq_Some, get_Some in Heq as [Hidx _].
  destruct (read _ _ _) as [[]|]; try discriminate.
  destruct (_ =? _); [|exact Hnext].
  destruct (StreamReader.compare_window _ _ _ _); [|exact Hnext].
  intros [= <-]. exists index. repeat split; lia.
Qed.

Lemma search_slices_bounds self (b : byte) (ps : bytes) offset begin
    beginOffset front total rest i p :
  0 <= front ->
  Forall (fun s => front + len s <= total) rest ->
  StreamReader.search_slices self (b :: ps) offset begin beginOffset front
    rest i = Return p ->
  p = -1 \/ len (b :: ps) <= p <= total.
Proof.
  intros Hfront Hall. revert i.
  induction Hall as [|slice rest Hs _ IH]; intros i; cbn [StreamReader.search_slices].
  - intros [= <-]. now left.
  - destruct (StreamReader.search_slice _ _ _ _ _ _ _) as [[q|]|] eqn:Hq;
      [|apply IH|discriminate].
    intros [= <-]. right.
    apply search_slice_Some in Hq as (idx & Hr & H0 & ->).
    pose proof (len_cons_pos b ps). lia.
Qed.

Lemma elem_len_le_sum (l : list bytes) (c : Z) :
  Forall (fun s => c + len s <= c + sum_lengths l) l.
Proof.
  induction l as [|s l IH]; constructor.
  - rewrite sum_lengths_cons. pose proof (sum_lengths_nonneg l). lia.
  - eapply Forall_impl; [exact IH|]. intros x Hx. cbv beta in *.
    rewrite sum_lengths_cons. pose proof (len_nonneg s). lia.
Qed.

(** [search] up to its outer loop, for an offset within the stream. *)
Lemma search_begin self (pre post : list bytes) (s pattern : bytes) (k : Z) :
  fields_slices self = pre ++ s :: post ->
  0 <= k < len s -> len pattern <> 0 ->
  search self (VUint8Array pattern) (VInt (sum_lengths pre + k))
  = StreamReader.search_slices self pattern (sum_lengths pre + k)
      (length pre) (sum_lengths pre) (sum_lengths pre) (s :: post) (length pre).
Proof.
  intros Hs Hk Hp. unfold search. cbn [default_param].
  destruct (Z.eqb_spec (len pattern) 0); [contradiction|].
  rewrite Hs. rewrite (scan_begin_stop pre post s 0 0) by lia. cbn [Nat.add].
  destruct (Z.leb_spec (0 + sum_lengths pre + len s) (sum_lengths pre + k));
    [lia|].
  rewrite list_lookup_middle by reflexivity. rewrite drop_app_length.
  replace (0 + sum_lengths pre + len s - len s) with (sum_lengths pre) by lia.
  reflexivity.
Qed.

Lemma search_beyond self (pattern : bytes) (offset : Z) :
  len pattern <> 0 ->
  sum_lengths (fields_slices self) <= offset ->
  search self (VUint8Array pattern) (VInt offset) = Return (-1).
Proof.
  intros Hp Hle. unfold search. cbn [default_param].
  destruct (Z.eqb_spec (len pattern) 0); [contradiction|].
  rewrite scan_begin_all by lia.
  destruct (Z.leb_spec (0 + sum_lengths (fields_slices self)) offset);
    [reflexivity | lia].
Qed.

Lemma len_cons_ne_0 (b : byte) (l : bytes) : len (b :: l) <> 0.
Proof. pose proof (len_cons_pos b l). lia. Qed.

(** X11. With a pattern that is not empty, [search] from an offset at or
    beyond the end of the stream returns -1. *)
Theorem search_beyond_end_not_found
    (calls : list call) (b : byte) (ps : bytes) (offset : Z) :
  StreamReader.length (run_calls calls constructor) <= offset ->
  search (run_calls calls constructor) (VUint8Array (b :: ps)) (VInt offset)
  = Return (-1).
Proof.
  intros Hle. apply search_beyond; [apply len_cons_ne_0|].
  pose proof (run_calls_consistent calls constructor eq_refl) as Hc.
  unfold consistent in Hc. unfold StreamReader.length in Hle. lia.
Qed.

Lemma search_beyond_end_not_found_witness :
  search (run_calls [AddSlice (VUint8Array [x41; x42])] constructor)
         (VUint8Array [x41]) (VInt 2)
  = Return (-1).
Proof.
  apply (search_beyond_end_not_found [AddSlice (VUint8Array [x41; x42])]
           x41 [] 2).
  vm_compute. discriminate.
Defined.

(** X12. What [search] returns, when it returns, is -1 or a position
    from the length of the pattern up to the length of the stream: it can
    be used as an offset in the stream. This holds for every integer
    offset. *)
Theorem search_result_bounds
    (self : fields) (b : byte) (ps : bytes) (offset p : Z) :
  search self (VUint8Array (b :: ps)) (VInt offset) = Return p ->
  p = -1
  \/ len (b :: ps) <= p <= sum_lengths (fields_slices self).
Proof.
  pose proof (len_cons_ne_0 b ps) as Hp.
  destruct (Z.le_gt_cases (sum_lengths (fields_slices self)) offset) as [Hge|Hlt].
  { rewrite search_beyond by assumption. intros [= <-]. now left. }
  destruct (Z.lt_ge_cases offset 0) as [Hneg|Hpos].
  - (* a negative offset: the first slice is where the scan begins *)
    unfold search. cbn [default_param].
    destruct (Z.eqb_spec (len (b :: ps)) 0); [contradiction|].
    destruct (fields_slices self) as [|s rest] eqn:Hs.
    + cbn. destruct (Z.leb_spec 0 offset); [lia | discriminate].
    + cbn [StreamReader.scan_begin]. pose proof (len_nonneg s).
      destruct (Z.leb_spec (0 + len s) offset); [lia|].
      destruct (Z.leb_spec (0 + len s) offset); [lia|].
      cbn [lookup list_lookup drop].
      replace (0 + len s - len s) with 0 by lia.
      apply search_slices_bounds; [lia|].
      apply (elem_len_le_sum (s :: rest) 0).
  - destruct (locate (fields_slices self) offset) as (pre & s & post & Hs & Hr);
      [lia|].
    replace offset with (sum_lengths pre + (offset - sum_lengths pre)) by lia.
    rewrite (search_begin self pre post s) by (assumption || lia).
    pose proof (sum_lengths_nonneg pre).
    apply search_slices_bounds; [lia|].
    rewrite Hs, sum_lengths_app. apply elem_len_le_sum.
Qed.

Lemma search_result_bounds_witness :
  2 = -1
  \/ len [x41; x42] <= 2
     <= sum_lengths (fields_slices (stream [[x41; x41; x42]])).
Proof.
  apply (search_result_bounds (stream [[x41; x41; x42]]) x41 [x42] 0 2).
  reflexivity.
Defined.

Lemma search_slice_absent self (b : byte) (ps : bytes) front slice i todo index :
  b ∉ slice ->
  StreamReader.search_slice self (b :: ps) front slice i todo index
  = Return None.
Proof.
  intros Habs. revert index. induction todo as [|todo IH]; intros index;
    [reflexivity|].
  rewrite search_slice_S. cbv zeta.
  destruct (Uint8Array.elem_eq _ _) eqn:Heq; [|apply IH].
  apply elem_eq_Some, get_Some in Heq as [_ Hin%list_elem_of_lookup_2].
  contradiction.
Qed.

Lemma search_slices_absent self (b : byte) (ps : bytes) offset begin
    beginOffset front rest i :
  Forall (fun s => b ∉ s) rest ->
  StreamReader.search_slices self (b :: ps) offset begin beginOffset front
    rest i = Return (-1).
Proof.
  intros Hall. revert i.
  induction Hall as [|slice rest Hs _ IH]; intros i;
    cbn [StreamReader.search_slices]; [reflexivity|].
  rewrite search_slice_absent by assumption. apply IH.
Qed.

(** X13. When the first byte of the pattern occurs in no slice, [search]
    returns -1 from every offset that is not negative: it reports no
    match and does not throw. *)
Theorem search_first_byte_absent
    (self : fields) (b : byte) (ps : bytes) (offset : Z) :
  0 <= offset ->
  Forall (fun s => b ∉ s) (fields_slices self) ->
  search self (VUint8Array (b :: ps)) (VInt offset) = Return (-1).
Proof.
  intros Hoff Hall. pose proof (len_cons_ne_0 b ps) as Hp.
  destruct (Z.le_gt_cases (sum_lengths (fields_slices self)) offset) as [Hge|Hlt].
  { now apply search_beyond. }
  destruct (locate (fields_slices self) offset) as (pre & s & post & Hs & Hr);
    [lia|].
  replace offset with (sum_lengths pre + (offset - sum_lengths pre)) by lia.
  rewrite (search_begin self pre post s) by (assumption || lia).
  apply search_slices_absent.
  rewrite Hs in Hall. now apply Forall_app in Hall as [_ Hall].
Qed.

Lemma search_first_byte_absent_witness :
  search (stream [[x41; x42]; [x43]]) (VUint8Array [x99; x41]) (VInt 1)
  = Return (-1).
Proof.
  apply (search_first_byte_absent (stream [[x41; x42]; [x43]]) x99 [x41] 1);
    [lia|].
  repeat constructor; intros H; repeat (apply elem_of_cons in H as [H|H];
    [discriminate H|]); now apply elem_of_nil in H.
Defined.

(** *** A stream of one slice *)

Lemma read_one_slice self (s : bytes) (m index : Z) :
  fields_slices self = [s] ->
  0 <= index < len s -> 0 <= m -> index + m <= len s ->
  read self (VInt m) (VInt (0 + index))
  = Return (VUint8Array (take (Z.to_nat m) (drop (Z.to_nat index) s))).
Proof.
  intros Hs Hi Hm Hfit. unfold read. cbn [default_param]. rewrite Hs.
  change (0 + index) with (sum_lengths [] + index).
  change [s] with ([] ++ s :: []).
  rewrite read_within_slice, logical_range_within by lia. reflexivity.
Qed.

(** The confirming step of [search] at a candidate of a one-slice stream:
    the byte at the candidate is compared with the first byte of the
    slice. *)
Lemma search_slice_one_step self (b : byte) (ps s : bytes) todo index :
  fields_slices self = [s] ->
  0 <= index -> index + len (b :: ps) <= len s ->
  Uint8Array.get s index = Some b ->
  StreamReader.search_slice self (b :: ps) 0 s 0 (S todo) index
  = if Uint8Array.elem_eq (Some b) (Uint8Array.get s 0)
    then Return (Some (0 + index + len (b :: ps)))
    else StreamReader.search_slice self (b :: ps) 0 s 0 todo (index + 1).
Proof.
  intros Hs Hi Hfit Hget. pose proof (len_cons_pos b ps) as Hm.
  rewrite search_slice_S. cbv zeta.
  change (Uint8Array.get (b :: ps) 0) with (Some b).
  rewrite (proj2 (elem_eq_Some _ _) Hget).
  rewrite (read_one_slice self s) by (assumption || lia).
  set (window := take (Z.to_nat (len (b :: ps))) (drop (Z.to_nat index) s)).
  assert (Hw : length window = Z.to_nat (len (b :: ps))).
  { unfold window. rewrite length_take, length_drop. unfold len in *. lia. }
  assert (Hlen : len window = len (b :: ps)) by (unfold len in *; lia).
  rewrite Hlen, Z.eqb_refl.
  destruct (length window) as [|w] eqn:Hlw; [unfold len in *; lia|].
  rewrite compare_window_S.
  assert (Hw0 : Uint8Array.get window (Z.of_nat 0) = Some b).
  { apply get_Some in Hget as [_ Hget].
    unfold Uint8Array.get, window. cbn [Z.of_nat Z.ltb Z.compare Z.to_nat].
    rewrite lookup_take_lt by (unfold len in *; lia).
    rewrite lookup_drop, Nat.add_0_r. exact Hget. }
  rewrite Hw0. reflexivity.
Qed.

Lemma search_slice_one_differs self (b : byte) (ps s : bytes) todo index :
  fields_slices self = [s] ->
  Uint8Array.get s 0 <> Some b ->
  0 <= index ->
  index + Z.of_nat todo <= len s - len (b :: ps) + 1 ->
  StreamReader.search_slice self (b :: ps) 0 s 0 todo index = Return None.
Proof.
  intros Hs Hhead. revert index.
  induction todo as [|todo IH]; intros index Hi Hfit; [reflexivity|].
  destruct (Uint8Array.elem_eq (Uint8Array.get s index) (Some b)) eqn:Heq.
  - apply elem_eq_Some in Heq.
    rewrite search_slice_one_step by (assumption || lia).
    destruct (Uint8Array.elem_eq (Some b) (Uint8Array.get s 0)) eqn:Hh.
    + apply elem_eq_Some_l in Hh. contradiction.
    + apply IH; lia.
  - rewrite search_slice_S. cbv zeta.
    change (Uint8Array.get (b :: ps) 0) with (Some b). rewrite Heq.
    apply IH; lia.
Qed.

Lemma search_slice_one_found self (b : byte) (ps s : bytes) todo index idx :
  fields_slices self = [s] ->
  Uint8Array.get s 0 = Some b ->
  0 <= index <= idx -> idx < index + Z.of_nat todo ->
  index + Z.of_nat todo <= len s - len (b :: ps) + 1 ->
  Uint8Array.get s idx = Some b ->
  (forall j, index <= j < idx -> Uint8Array.get s j <> Some b) ->
  StreamReader.search_slice self (b :: ps) 0 s 0 todo index
  = Return (Some (idx + len (b :: ps))).
Proof.
  intros Hs Hhead. revert index.
  induction todo as [|todo IH]; intros index Hi Hlt Hfit Hget Hfirst; [lia|].
  destruct (Z.eq_dec index idx) as [->|Hne].
  - rewrite search_slice_one_step by (assumption || lia).
    rewrite (proj2 (elem_eq_Some_l _ _) Hhead). reflexivity.
  - rewrite search_slice_S. cbv zeta.
    change (Uint8Array.get (b :: ps) 0) with (Some b).
    destruct (Uint8Array.elem_eq (Uint8Array.get s index) (Some b)) eqn:Heq.
    + apply elem_eq_Some in Heq. exfalso. apply (Hfirst index); [lia | exact Heq].
    + apply IH; try lia; try assumption. intros j Hj. apply Hfirst. lia.
Qed.

Lemma search_one_slice self (pattern s : bytes) (offset : Z) :
  fields_slices self = [s] ->
  0 <= offset < len s -> len pattern <> 0 ->
  search self (VUint8Array pattern) (VInt offset)
  = match StreamReader.search_slice self pattern 0 s 0
            (Z.to_nat (len s - len pattern + 1 - offset)) offset with
    | Throw e => Throw e
    | Return (Some p) => Return p
    | Return None => Return (-1)
    end.
Proof.
  intros Hs Hoff Hp.
  change offset with (sum_lengths [] + offset) at 1.
  rewrite (search_begin self [] [] s) by (assumption || lia).
  cbn [StreamReader.search_slices length Nat.eqb].
  change (sum_lengths []) with 0. rewrite Z.add_0_l, Z.sub_0_r.
  destruct (StreamReader.search_slice _ _ _ _ _ _ _) as [[p|]|]; reflexivity.
Qed.

(** X14. On a stream of one slice, [search] finds nothing when the first
    byte of the pattern is not the first byte of the slice, wherever the
    pattern occurs in the slice. *)
Theorem search_one_slice_first_byte_differs
    (self : fields) (b : byte) (ps s : bytes) (offset : Z) :
  fields_slices self = [s] ->
  0 <= offset ->
  Uint8Array.get s 0 <> Some b ->
  search self (VUint8Array (b :: ps)) (VInt offset) = Return (-1).
Proof.
  intros Hs Hoff Hhead. pose proof (len_cons_ne_0 b ps) as Hp.
  destruct (Z.le_gt_cases (len s) offset) as [Hge|Hlt].
  { apply search_beyond; [assumption|]. rewrite Hs. cbn. lia. }
  rewrite (search_one_slice self (b :: ps) s) by (assumption || lia).
  destruct (Z.to_nat (len s - len (b :: ps) + 1 - offset)) as [|todo] eqn:Htodo;
    [reflexivity|].
  rewrite search_slice_one_differs; try assumption; try lia. reflexivity.
Qed.

Lemma search_one_slice_first_byte_differs_witness :
  search (stream [[x41; x42; x43]]) (VUint8Array [x42; x43]) (VInt 0)
  = Return (-1).
Proof.
  apply (search_one_slice_first_byte_differs (stream [[x41; x42; x43]])
           x42 [x43] [x41; x42; x43] 0);
    [reflexivity | lia | vm_compute; discriminate].
Defined.

(** X15. On a stream of one slice whose first byte is the first byte of
    the pattern, [search] looks at no other byte of the pattern: it
    returns the end of the first position, from the offset on, that holds
    that byte and leaves room for the pattern, whatever bytes follow
    there. *)
Theorem search_one_slice_first_byte_only
    (self : fields) (b : byte) (ps s : bytes) (offset idx : Z) :
  fields_slices self = [s] ->
  Uint8Array.get s 0 = Some b ->
  0 <= offset <= idx ->
  idx + len (b :: ps) <= len s ->
  Uint8Array.get s idx = Some b ->
  (forall j, offset <= j < idx -> Uint8Array.get s j <> Some b) ->
  search self (VUint8Array (b :: ps)) (VInt offset)
  = Return (idx + len (b :: ps)).
Proof.
  intros Hs Hhead Hoff Hfit Hget Hfirst.
  pose proof (len_cons_pos b ps) as Hm.
  rewrite (search_one_slice self (b :: ps) s) by (assumption || lia).
  rewrite (search_slice_one_found self b ps s _ offset idx);
    try assumption; try lia.
  reflexivity.
Qed.

Lemma search_one_slice_first_byte_only_witness :
  search (stream [[x41; x42; x41; x43]]) (VUint8Array [x41; x99]) (VInt 1)
  = Return (2 + len [x41; x99]).
Proof.
  apply (search_one_slice_first_byte_only (stream [[x41; x42; x41; x43]])
           x41 [x99] [x41; x42; x41; x43] 1 2);
    [reflexivity | reflexivity | lia | vm_compute; discriminate
     | reflexivity |].
  intros j Hj. replace j with 1 by lia. vm_compute. discriminate.
Defined.

(** ** Appending and reading back *)

(** X16. After calls of [addSlice] and [addPayload] that all succeed and
    hand over at least one byte, [read(length, 0)] returns all the bytes
    handed over, in the order of the calls. *)
Theorem read_back_everything (apps : list append) :
  let appended := concat (map slices_of apps) in
  let self := snd (for_of (map call_of apps) perform constructor) in
  0 < sum_lengths appended ->
  fst (for_of (map call_of apps) perform constructor) = Return tt
  /\ read self (VInt (StreamReader.length self)) (VInt 0)
     = Return (VUint8Array (concat appended)).
Proof.
  intros appended self Hpos. subst self.
  rewrite for_of_appends. cbn [fst snd]. split; [reflexivity|].
  unfold read, StreamReader.length, extend.
  cbn [default_param fields_slices fields_length constructor app].
  fold appended. rewrite Z.add_0_l.
  rewrite <- (app_nil_r appended) at 1.
  replace (sum_lengths appended) with (sum_lengths appended - 0) by lia.
  rewrite read_range_to_boundary by lia. reflexivity.
Qed.

Lemma read_back_everything_witness :
  fst (for_of (map call_of [Slice [x41; x42]; Slices [[x43]; []; [x44]]])
         perform constructor) = Return tt
  /\ read (snd (for_of (map call_of [Slice [x41; x42]; Slices [[x43]; []; [x44]]])
                  perform constructor))
          (VInt (StreamReader.length
                   (snd (for_of (map call_of
                                   [Slice [x41; x42]; Slices [[x43]; []; [x44]]])
                           perform constructor))))
          (VInt 0)
     = Return (VUint8Array
         (concat (concat (map slices_of
                            [Slice [x41; x42]; Slices [[x43]; []; [x44]]])))).
Proof.
  apply (read_back_everything [Slice [x41; x42]; Slices [[x43]; []; [x44]]]).
  vm_compute. reflexivity.
Defined.
